(** * Benjamini-Hochberg FDR correction ([fdr_bh] of test_fdr.py)

    A shallow embedding of the routine [fdr_bh] and of the NumPy and Python
    operations it is written with, followed by the properties of the routine.

    Numbers.  The routine is embedded twice, with the same text over two
    kinds of numbers.

    - [B64.fdr_bh]: a NumPy float is a binary64 number, Rocq's primitive
      [PrimFloat.float], whose comparisons, products and quotients are the
      IEEE 754 ones (rounding to nearest, ties to even) and whose NaN,
      infinities and signed zeros are those of the source; a decimal literal
      is the nearest binary64 number, as in Python.  [np.argsort], whose
      order of equal values NumPy leaves open, is a parameter of this
      embedding, and the statements hold for every function that returns the
      positions in an order in which the values ascend ([B64.sorts]).  The
      properties that speak of the numbers the routine computes (the
      thresholds, the critical value, the recurrence of the adjusted values,
      the decision read off an adjusted value, the counts of the test
      harness) are proved of this embedding.

    - [fdr_bh]: a float is NaN or an exact rational ([Qc], canonical
      fractions), and a decimal literal is that decimal: the procedure in
      exact arithmetic, without rounding, overflow or infinities.  The
      properties that rest on the laws of arithmetic (monotonicity of the
      adjusted values, ties, the behaviour under reordering and under missing
      entries) are proved of this embedding; where a statement needs a
      condition that exact arithmetic gives for free and rounding does not,
      the condition is a hypothesis of the statement.

    Failures.  Every operation of the source that can raise (an index out of
    range, a shape mismatch in an assignment, a division by zero) returns a
    [result]; [fdr_bh] threads them with the bind of that monad. *)

From Stdlib Require Import ZArith Floats QArith Qcanon.
From stdpp Require Import base numbers list sorting.

(* A decimal literal of binary64 stands for the nearest number. *)
#[local] Set Warnings "-inexact-float".

Local Open Scope Qc_scope.

(** ** Floats in exact arithmetic *)

Inductive float : Type :=
  | NaN : float
  | Fin (x : Qc) : float.

Global Instance float_eq_dec : EqDecision float.
Proof. solve_decision. Defined.

(** A decimal literal of the source, such as [0.05]. *)
Definition py_float (x : Q) : float := Fin (Q2Qc x).

(** An integer used as a number, such as [n_valid] in [ranks / n_valid]. *)
Definition of_nat (n : nat) : Qc := Qc_of_Z (Z.of_nat n).

(** [np.isnan]. *)
Definition isnan (x : float) : bool :=
  match x with NaN => true | Fin _ => false end.

(** [a <= b] and [a < b] on floats: false as soon as one side is NaN. *)
Definition fle (a b : float) : bool :=
  match a, b with
  | Fin x, Fin y => bool_decide (x ≤ y)
  | _, _ => false
  end.

Definition flt (a b : float) : bool :=
  match a, b with
  | Fin x, Fin y => bool_decide (x < y)
  | _, _ => false
  end.

(** [a * b] on floats: NaN propagates. *)
Definition fmul (a b : float) : float :=
  match a, b with
  | Fin x, Fin y => Fin (x * y)
  | _, _ => NaN
  end.

(** [a - b] and [abs(a)] on floats: NaN propagates. *)
Definition fsub (a b : float) : float :=
  match a, b with
  | Fin x, Fin y => Fin (x - y)
  | _, _ => NaN
  end.

Definition fabs (a : float) : float :=
  match a with
  | Fin x => Fin (if bool_decide (x < 0) then - x else x)
  | NaN => NaN
  end.

(** Python's builtin [min(a, b)]: the first argument is kept unless the
    second is strictly smaller. *)
Definition py_min (a b : float) : float :=
  if flt b a then b else a.

(** ** Results of operations that can raise *)

Inductive error : Type :=
  | IndexError
  | ValueError
  | ZeroDivisionError.

Inductive result (A : Type) : Type :=
  | Ok (a : A)
  | Err (e : error).
Arguments Ok {A} a.
Arguments Err {A} e.

Global Instance result_ret : MRet result := λ A a, Ok a.
Global Instance result_bind : MBind result := λ A B f r,
  match r with
  | Ok a => f a
  | Err e => Err e
  end.

(** A [for] loop whose body can raise: [foldM body a l] runs [body] on the
    elements of [l] from left to right, threading the array [a]. *)
Fixpoint foldM {A B} (body : A → B → result A) (a : A) (l : list B) : result A :=
  match l with
  | [] => Ok a
  | i :: l' => a' ← body a i; foldM body a' l'
  end.

Fixpoint mapM_result {A B} (f : A → result B) (l : list A) : result (list B) :=
  match l with
  | [] => Ok []
  | x :: l' => y ← f x; ys ← mapM_result f l'; Ok (y :: ys)
  end.

(** ** Array operations *)

(** [a[i]] for [i >= 0]. *)
Definition get_item {A} (a : list A) (i : nat) : result A :=
  match a !! i with
  | Some x => Ok x
  | None => Err IndexError
  end.

(** [a[-1]]. *)
Definition get_last {A} (a : list A) : result A :=
  match last a with
  | Some x => Ok x
  | None => Err IndexError
  end.

(** [a[i] = v] for [i >= 0]. *)
Definition set_item {A} (a : list A) (i : nat) (v : A) : result (list A) :=
  if decide (i < length a)%nat then Ok (<[i:=v]> a) else Err IndexError.

(** [a[-1] = v]. *)
Definition set_last {A} (a : list A) (v : A) : result (list A) :=
  match length a with
  | O => Err IndexError
  | S n => Ok (<[n:=v]> a)
  end.

(** [a[idx]] for an index array [idx]. *)
Definition take_idx {A} (a : list A) (idx : list nat) : result (list A) :=
  mapM_result (get_item a) idx.

(** [a[idx] = vals] for an index array [idx]: as many values as indices
    (the broadcast of a single value is not modelled), every index in range;
    the assignments take place in the order of [idx]. *)
Fixpoint put_idx {A} (a : list A) (idx : list nat) (vals : list A) : result (list A) :=
  match idx, vals with
  | [], [] => Ok a
  | i :: idx', v :: vals' => a' ← set_item a i v; put_idx a' idx' vals'
  | _, _ => Err ValueError
  end.

(** [a[mask]] for a boolean array [mask] of the length of [a]. *)
Fixpoint mask_select {A} (a : list A) (mask : list bool) : result (list A) :=
  match a, mask with
  | [], [] => Ok []
  | x :: a', b :: mask' =>
      r ← mask_select a' mask'; Ok (if b : bool then x :: r else r)
  | _, _ => Err IndexError
  end.

(** [a[mask] = vals]: [mask] has the length of [a], and [vals] has one value
    for each true entry of [mask] (the broadcast of a single value is not
    modelled). *)
Fixpoint mask_put {A} (a : list A) (mask : list bool) (vals : list A) : result (list A) :=
  match a, mask with
  | [], [] => match vals with [] => Ok [] | _ :: _ => Err ValueError end
  | x :: a', true :: mask' =>
      match vals with
      | v :: vals' => r ← mask_put a' mask' vals'; Ok (v :: r)
      | [] => Err ValueError
      end
  | x :: a', false :: mask' => r ← mask_put a' mask' vals; Ok (x :: r)
  | _, _ => Err IndexError
  end.

(** [np.where(mask)[0]]: the indices of the true entries, ascending;
    [where_from i mask] numbers the entries of [mask] from [i]. *)
Fixpoint where_from (i : nat) (mask : list bool) : list nat :=
  match mask with
  | [] => []
  | b :: mask' => (if b then [i] else []) ++ where_from (S i) mask'
  end.

Definition np_where (mask : list bool) : list nat := where_from 0 mask.

(** [mask.any()]. *)
Definition any (mask : list bool) : bool := existsb id mask.

(** [a <= b] on two arrays of one shape; arrays of different lengths count
    as a failure (the broadcast of a one-element array is not modelled). *)
Definition le_arrays (a b : list float) : result (list bool) :=
  if decide (length a = length b) then Ok (zip_with fle a b) else Err ValueError.

(** [ranks / n] for an integer array and an integer.  NumPy answers a zero
    divisor with infinities and a warning; the model has no infinities and
    counts that case as a failure. *)
Definition div_scalar (ranks : list nat) (n : nat) : result (list float) :=
  match n with
  | O => Err ZeroDivisionError
  | S _ => Ok ((λ r, Fin (of_nat r / of_nat n)) <$> ranks)
  end.

(** [a / b] on Python integers: true division. *)
Definition int_div (a b : nat) : result float :=
  match b with
  | O => Err ZeroDivisionError
  | S _ => Ok (Fin (of_nat a / of_nat b))
  end.

(** ** Sorting *)

(** The order [np.argsort] sorts floats by: NaN after every number. *)
Definition sort_le (a b : float) : Prop :=
  match a, b with
  | Fin x, Fin y => x ≤ y
  | _, NaN => True
  | NaN, Fin _ => False
  end.

Global Instance sort_le_dec : RelDecision sort_le.
Proof.
  intros [|x] [|y]; simpl; try apply _.
Defined.

(** Pairs (value, position) are ordered by their values. *)
Definition key_le (x y : float * nat) : Prop := sort_le x.1 y.1.

Global Instance key_le_dec : RelDecision key_le.
Proof. intros x y. unfold key_le. apply _. Defined.

(** [np.argsort(a)]: the positions of [a] in ascending order of value.  The
    source leaves the order of equal values to NumPy; here a merge sort fixes
    it. *)
Definition argsort (a : list float) : list nat :=
  (merge_sort key_le (zip a (seq 0 (length a)))).*2.

(** ** The routine *)

(** One pass of the loop of lines 41-42,
    [adj_p_sorted[i] = min(1.0, min((n_valid / (i + 1)) * sorted_pvals[i],
    adj_p_sorted[i + 1]))]. *)
Definition adj_step (n_valid : nat) (sorted_pvals : list float)
    (adj_p_sorted : list float) (i : nat) : result (list float) :=
  ratio ← int_div n_valid (i + 1);
  p_i ← get_item sorted_pvals i;
  next ← get_item adj_p_sorted (i + 1);
  set_item adj_p_sorted i (py_min (py_float 1.0) (py_min (fmul ratio p_i) next)).

(** [range(n - 2, -1, -1)]: [n - 2, ..., 1, 0], empty when [n <= 1]. *)
Definition range_down (n : nat) : list nat := reverse (seq 0 (n - 1)).

Definition fdr_bh (pvals : list float) (q : float)
    : result (list bool * float * list float) :=
  if decide (length pvals = 0%nat) then Ok ([], py_float 0, [])
  else
    (* Remove NaNs *)
    let valid_mask := negb <$> (isnan <$> pvals) in
    valid_pvals ← mask_select pvals valid_mask;
    let n_valid := length valid_pvals in
    if decide (n_valid = 0%nat) then
      Ok (replicate (length pvals) false, NaN, replicate (length pvals) NaN)
    else
      (* Sort p-values *)
      let sorted_idx := argsort valid_pvals in
      sorted_pvals ← take_idx valid_pvals sorted_idx;
      (* Calculate BH thresholds *)
      let ranks := seq 1 n_valid in
      ratios ← div_scalar ranks n_valid;
      let bh_threshold := (λ r, fmul r q) <$> ratios in
      (* Find largest i where P(i) <= (i/m)*q *)
      significant_mask ← le_arrays sorted_pvals bh_threshold;
      '(crit_p, h_valid) ←
        (if negb (any significant_mask) then
           Ok (py_float 0, replicate n_valid false)
         else
           significant_idx ← get_last (np_where significant_mask);
           crit_p ← get_item sorted_pvals significant_idx;
           Ok (crit_p, (λ p, fle p crit_p) <$> sorted_pvals));
      (* Calculate adjusted p-values *)
      let adj_p_sorted := replicate n_valid NaN in
      last_p ← get_last sorted_pvals;
      adj_p_sorted ← set_last adj_p_sorted last_p;
      adj_p_sorted ←
        foldM (adj_step n_valid sorted_pvals) adj_p_sorted (range_down n_valid);
      (* Unsort *)
      h_unsorted ← put_idx (replicate n_valid false) sorted_idx h_valid;
      adj_p_unsorted ← put_idx (replicate n_valid NaN) sorted_idx adj_p_sorted;
      (* Insert back *)
      h ← mask_put (replicate (length pvals) false) valid_mask h_unsorted;
      adj_p ← mask_put (replicate (length pvals) NaN) valid_mask adj_p_unsorted;
      Ok (h, crit_p, adj_p).

(** The inputs of the test harness. *)
Definition p_vals_1 : list float :=
  py_float <$> [0.001; 0.008; 0.039; 0.041; 0.042; 0.060; 0.074; 0.205; 0.212; 0.216]%Q.

Definition p_vals_2 : list float :=
  py_float <$> [0.06; 0.08; 0.10; 0.15; 0.20; 0.30; 0.40; 0.50; 0.60; 0.70; 0.80]%Q.

Definition p_vals_3 : list float :=
  py_float <$> [0.0001; 0.0002; 0.0003; 0.0004; 0.0005; 0.0006; 0.0007; 0.0008; 0.0009; 0.0010]%Q.

Definition p_vals_4 : list float :=
  py_float <$> [0.01; 0.02; 0.03; 0.10; 0.15; 0.25; 0.35; 0.50; 0.65; 0.80; 0.90]%Q.

(** ** Notions used to state the properties *)

(** The finite entries of the input, in input order. *)
Definition vals (pvals : list float) : list Qc :=
  omap (λ p, match p with Fin x => Some x | NaN => None end) pvals.

(** The minimum of two rationals, with the tie rule of [py_min]. *)
Definition qmin (a b : Qc) : Qc := if bool_decide (b < a) then b else a.

(** The threshold [(rank / m) * q] of the entry at index [k] (rank [k + 1]). *)
Definition thr (m : nat) (q : float) (k : nat) : float :=
  fmul (Fin (of_nat (S k) / of_nat m)) q.

(** The finite entries of the input are p-values: they lie in [0, 1]. *)
Definition in_unit (pvals : list float) : Prop :=
  Forall (λ x, 0 ≤ x ∧ x ≤ 1) (vals pvals).

Global Instance in_unit_dec pvals : Decision (in_unit pvals).
Proof. unfold in_unit. apply _. Defined.


(** [l] with [d] inserted before position [i]. *)
Definition insert_at {A} (i : nat) (d : A) (l : list A) : list A :=
  take i l ++ d :: drop i l.

(** [np.sum(h)] of the test harness: the number of true flags. *)
Fixpoint count_true (h : list bool) : nat :=
  match h with
  | [] => 0
  | b :: h' => (if b then 1 else 0) + count_true h'
  end.

(** ** The checks of the test harness

    The scripts run their checks on literal arrays; here the array and the
    level [q] are arguments. *)

(** Lines 82-86 of test_fdr.py, the expected number of significant tests:
    [for i in range(m - 1, -1, -1)], stopping with [largest_i = i + 1] at
    the first index whose entry is at most [((i + 1) / m) * q];
    [find_largest] runs over the indices left to visit. *)
Fixpoint find_largest (p_vals : list float) (m : nat) (q : float)
    (idxs : list nat) : result nat :=
  match idxs with
  | [] => Ok 0%nat
  | i :: idxs' =>
      p_i ← get_item p_vals i;
      ratio ← int_div (i + 1) m;
      if fle p_i (fmul ratio q) then Ok (i + 1)%nat
      else find_largest p_vals m q idxs'
  end.

Definition expected_largest (p_vals : list float) (q : float) : result nat :=
  let m := length p_vals in
  find_largest p_vals m q (reverse (seq 0 m)).

(** Lines 95-104 of test_fdr.py: the verdict of test 1,
    [np.sum(h) == largest_i and (largest_i == 0 or
     abs(crit_p - p_vals[largest_i - 1]) < 0.0001)]. *)
Definition test_1_check (p_vals : list float) (q : float) : result bool :=
  largest_i ← expected_largest p_vals q;
  '(h, crit_p, adj_p) ← fdr_bh p_vals q;
  if decide (count_true h = largest_i) then
    if decide (largest_i = 0%nat) then Ok true
    else
      p ← get_item p_vals (largest_i - 1);
      Ok (flt (fabs (fsub crit_p p)) (py_float 0.0001))
  else Ok false.

(** Lines 29-39 of test_fdr_simple.py: one pass of the loop, and the loop
    [for i in range(m)] that keeps the last rank whose entry passes. *)
Definition manual_step (p_vals : list float) (m : nat) (q : float)
    (largest_i i : nat) : result nat :=
  let rank := (i + 1)%nat in
  ratio ← int_div rank m;
  let threshold := fmul ratio q in
  p_i ← get_item p_vals i;
  let passes := fle p_i threshold in
  Ok (if passes then rank else largest_i).

Definition manual_largest (p_vals : list float) (q : float) : result nat :=
  let m := length p_vals in
  foldM (manual_step p_vals m q) 0%nat (seq 0 m).


(** ** Mathematical counterparts of the steps, used by the proofs *)

(** The step-down values of an ascending list [sp] whose head sits at index
    [k] among [m] values. *)
Fixpoint adjQ (m k : nat) (sp : list Qc) : list Qc :=
  match sp with
  | [] => []
  | x :: rest =>
      match adjQ m (S k) rest with
      | [] => [x]
      | a :: r => qmin 1 (qmin (of_nat m / of_nat (S k) * x) a) :: a :: r
      end
  end.

(** The result of [put_idx] when nothing raises. *)
Fixpoint scatter {A} (a : list A) (idx : list nat) (vals : list A) : list A :=
  match idx, vals with
  | i :: idx', v :: vals' => scatter (<[i:=v]> a) idx' vals'
  | _, _ => a
  end.

(** The result of [mask_put] on an array filled with [d]. *)
Fixpoint mask_fill {A} (d : A) (mask : list bool) (vs : list A) : list A :=
  match mask with
  | [] => []
  | true :: mask' =>
      match vs with
      | v :: vs' => v :: mask_fill d mask' vs'
      | [] => d :: mask_fill d mask' []
      end
  | false :: mask' => d :: mask_fill d mask' vs
  end.

(** The result of [mask_put] on an array filled with [d], for the mask of
    the finite entries of [pvals]. *)
Fixpoint reinsert {A} (d : A) (pvals : list float) (vs : list A) : list A :=
  match pvals with
  | [] => []
  | NaN :: pvals' => d :: reinsert d pvals' vs
  | Fin _ :: pvals' =>
      match vs with
      | v :: vs' => v :: reinsert d pvals' vs'
      | [] => d :: reinsert d pvals' []
      end
  end.

(** The mask [sorted_pvals <= bh_threshold] of an ascending list [sp]. *)
Definition sig_mask (sp : list Qc) (q : float) : list bool :=
  imap (λ k x, fle (Fin x) (thr (length sp) q k)) sp.

(** The critical value: the entry of [sp] at the last index where the mask
    holds, if there is one. *)
Definition crit_of (sp : list Qc) (q : float) : option Qc :=
  last (np_where (sig_mask sp q)) ≫= (sp !!.).

(** The finite entries in ascending order. *)
Definition sorted_vals (pvals : list float) : list Qc :=
  merge_sort Qcle (vals pvals).

(** The three outputs of the routine on an input with a finite entry. *)
Definition bh_flags (pvals : list float) (q : float) : list bool :=
  match crit_of (sorted_vals pvals) q with
  | Some c => (λ p, fle p (Fin c)) <$> pvals
  | None => replicate (length pvals) false
  end.

Definition bh_crit (pvals : list float) (q : float) : float :=
  match crit_of (sorted_vals pvals) q with
  | Some c => Fin c
  | None => Fin 0
  end.

Definition bh_adj_valid (vs : list Qc) : list float :=
  scatter (replicate (length vs) NaN) (argsort (Fin <$> vs))
    (Fin <$> adjQ (length vs) 0 (merge_sort Qcle vs)).

Definition bh_adj (pvals : list float) : list float :=
  reinsert NaN pvals (bh_adj_valid (vals pvals)).

(** The step-down value of a value [x] of the ascending list [sp]: the one
    at the first index where [x] stands. *)
Definition adj_value (sp : list Qc) (x : Qc) : Qc :=
  default 0 (list_find (x =.) sp ≫= λ kx, adjQ (length sp) 0 sp !! kx.1).

Definition adj_float (sp : list Qc) (p : float) : float :=
  match p with
  | NaN => NaN
  | Fin x => Fin (adj_value sp x)
  end.

(** The mask of the ranks that pass, for an array that may hold NaN, and
    the count the harness loops arrive at: the last rank that passes, 0 when
    none does. *)
Definition pass_mask (p_vals : list float) (q : float) : list bool :=
  imap (λ i p, fle p (thr (length p_vals) q i)) p_vals.

Definition largest_of (mask : list bool) : nat :=
  match last (np_where mask) with
  | Some k => S k
  | None => 0
  end.

(** ** The routine in binary64 *)

Module B64.

Local Abbreviation float := PrimFloat.float (only parsing).

(** [np.nan], [np.isnan], and the comparisons and products of binary64. *)
Definition nan : float := PrimFloat.nan.

Definition isnan (x : float) : bool := PrimFloat.is_nan x.

Definition fle (a b : float) : bool := PrimFloat.leb a b.

Definition flt (a b : float) : bool := PrimFloat.ltb a b.

Definition fmul (a b : float) : float := PrimFloat.mul a b.

Definition fdiv (a b : float) : float := PrimFloat.div a b.

Definition fsub (a b : float) : float := PrimFloat.sub a b.

Definition fabs (a : float) : float := PrimFloat.abs a.

Definition feq (a b : float) : bool := PrimFloat.eqb a b.

(** An integer converted to binary64, as both Python and NumPy do before a
    true division; exact for the integers below 2^53, which covers every
    array length. *)
Definition of_int (n : nat) : float :=
  PrimFloat.of_uint63 (Uint63.of_Z (Z.of_nat n)).

(** Python's builtin [min(a, b)]. *)
Definition py_min (a b : float) : float :=
  if flt b a then b else a.

(** [a / b] on Python integers: [ZeroDivisionError] on a zero divisor. *)
Definition int_div (a b : nat) : result float :=
  match b with
  | O => Err ZeroDivisionError
  | S _ => Ok (fdiv (of_int a) (of_int b))
  end.

(** [ranks / n] for an integer array and an integer: NumPy divides in
    binary64 and does not raise. *)
Definition div_scalar (ranks : list nat) (n : nat) : list float :=
  (λ r, fdiv (of_int r) (of_int n)) <$> ranks.

Definition le_arrays (a b : list float) : result (list bool) :=
  if decide (length a = length b) then Ok (zip_with fle a b) else Err ValueError.

Global Instance float_inhabited : Inhabited float := populate 0%float.

(** The order [np.argsort] sorts by: [<=] of binary64, NaN after every
    number. *)
Definition sort_le (a b : float) : Prop := isnan b || fle a b.

Global Instance sort_le_dec : RelDecision sort_le.
Proof. intros a b. unfold sort_le. apply _. Defined.

(** What [np.argsort(a)] promises of its result [idx]: the positions of
    [a], each once, in an order in which the values ascend.  Which of two
    equal values comes first is left open (the default sort of NumPy is not
    stable). *)
Definition sorts (a : list float) (idx : list nat) : Prop :=
  idx ≡ₚ seq 0 (length a) ∧ Sorted sort_le ((a !!!.) <$> idx).

Global Instance sorts_dec a idx : Decision (sorts a idx).
Proof. unfold sorts. apply _. Defined.

(** A function that keeps the promise: a merge sort of the pairs (value,
    position) by value. *)
Definition key_le (x y : float * nat) : Prop := sort_le x.1 y.1.

Global Instance key_le_dec : RelDecision key_le.
Proof. intros x y. unfold key_le. apply _. Defined.

Definition merge_argsort (a : list float) : list nat :=
  (merge_sort key_le (zip a (seq 0 (length a)))).*2.

(** Lines 41-42. *)
Definition adj_step (n_valid : nat) (sorted_pvals : list float)
    (adj_p_sorted : list float) (i : nat) : result (list float) :=
  ratio ← int_div n_valid (i + 1);
  p_i ← get_item sorted_pvals i;
  next ← get_item adj_p_sorted (i + 1);
  set_item adj_p_sorted i (py_min 1%float (py_min (fmul ratio p_i) next)).

(** The routine; [np.argsort] is a parameter [argsort], constrained in the
    statements by [sorts]. *)
Section routine.
Variable argsort : list float → list nat.

Definition fdr_bh (pvals : list float) (q : float)
    : result (list bool * float * list float) :=
  if decide (length pvals = 0%nat) then Ok ([], 0%float, [])
  else
    (* Remove NaNs *)
    let valid_mask := negb <$> (isnan <$> pvals) in
    valid_pvals ← mask_select pvals valid_mask;
    let n_valid := length valid_pvals in
    if decide (n_valid = 0%nat) then
      Ok (replicate (length pvals) false, nan, replicate (length pvals) nan)
    else
      (* Sort p-values *)
      let sorted_idx := argsort valid_pvals in
      sorted_pvals ← take_idx valid_pvals sorted_idx;
      (* Calculate BH thresholds *)
      let ranks := seq 1 n_valid in
      let bh_threshold := (λ r, fmul r q) <$> div_scalar ranks n_valid in
      (* Find largest i where P(i) <= (i/m)*q *)
      significant_mask ← le_arrays sorted_pvals bh_threshold;
      '(crit_p, h_valid) ←
        (if negb (any significant_mask) then
           Ok (0%float, replicate n_valid false)
         else
           significant_idx ← get_last (np_where significant_mask);
           crit_p ← get_item sorted_pvals significant_idx;
           Ok (crit_p, (λ p, fle p crit_p) <$> sorted_pvals));
      (* Calculate adjusted p-values *)
      let adj_p_sorted := replicate n_valid nan in
      last_p ← get_last sorted_pvals;
      adj_p_sorted ← set_last adj_p_sorted last_p;
      adj_p_sorted ←
        foldM (adj_step n_valid sorted_pvals) adj_p_sorted (range_down n_valid);
      (* Unsort *)
      h_unsorted ← put_idx (replicate n_valid false) sorted_idx h_valid;
      adj_p_unsorted ← put_idx (replicate n_valid nan) sorted_idx adj_p_sorted;
      (* Insert back *)
      h ← mask_put (replicate (length pvals) false) valid_mask h_unsorted;
      adj_p ← mask_put (replicate (length pvals) nan) valid_mask adj_p_unsorted;
      Ok (h, crit_p, adj_p).

End routine.

(** The inputs of the test harness. *)
Definition p_vals_1 : list float :=
  [0.001; 0.008; 0.039; 0.041; 0.042; 0.060; 0.074; 0.205; 0.212; 0.216]%float.

Definition p_vals_2 : list float :=
  [0.06; 0.08; 0.10; 0.15; 0.20; 0.30; 0.40; 0.50; 0.60; 0.70; 0.80]%float.

Definition p_vals_3 : list float :=
  [0.0001; 0.0002; 0.0003; 0.0004; 0.0005; 0.0006; 0.0007; 0.0008; 0.0009; 0.0010]%float.

Definition p_vals_4 : list float :=
  [0.01; 0.02; 0.03; 0.10; 0.15; 0.25; 0.35; 0.50; 0.65; 0.80; 0.90]%float.

(** Lines 82-86 of test_fdr.py and lines 29-39 of test_fdr_simple.py. *)
Fixpoint find_largest (p_vals : list float) (m : nat) (q : float)
    (idxs : list nat) : result nat :=
  match idxs with
  | [] => Ok 0%nat
  | i :: idxs' =>
      p_i ← get_item p_vals i;
      ratio ← int_div (i + 1) m;
      if fle p_i (fmul ratio q) then Ok (i + 1)%nat
      else find_largest p_vals m q idxs'
  end.

Definition expected_largest (p_vals : list float) (q : float) : result nat :=
  let m := length p_vals in
  find_largest p_vals m q (reverse (seq 0 m)).

Definition manual_step (p_vals : list float) (m : nat) (q : float)
    (largest_i i : nat) : result nat :=
  let rank := (i + 1)%nat in
  ratio ← int_div rank m;
  let threshold := fmul ratio q in
  p_i ← get_item p_vals i;
  let passes := fle p_i threshold in
  Ok (if passes then rank else largest_i).

Definition manual_largest (p_vals : list float) (q : float) : result nat :=
  let m := length p_vals in
  foldM (manual_step p_vals m q) 0%nat (seq 0 m).

(** The verdicts of tests 1, 2 and 3 of test_fdr.py (lines 101, 121 and
    140):
    [np.sum(h) == largest_i and (largest_i == 0 or
     abs(crit_p - p_vals[largest_i - 1]) < 0.0001)],
    [np.sum(h) == 0 and crit_p == 0] and [np.sum(h) == len(p_vals)]. *)
Section harness.
Variable argsort : list float → list nat.

Definition test_1_check (p_vals : list float) (q : float) : result bool :=
  largest_i ← expected_largest p_vals q;
  '(h, crit_p, adj_p) ← fdr_bh argsort p_vals q;
  if decide (count_true h = largest_i) then
    if decide (largest_i = 0%nat) then Ok true
    else
      p ← get_item p_vals (largest_i - 1);
      Ok (flt (fabs (fsub crit_p p)) 0.0001%float)
  else Ok false.

Definition test_2_check (p_vals : list float) (q : float) : result bool :=
  '(h, crit_p, adj_p) ← fdr_bh argsort p_vals q;
  Ok (bool_decide (count_true h = 0%nat) && feq crit_p 0%float).

Definition test_3_check (p_vals : list float) (q : float) : result bool :=
  '(h, crit_p, adj_p) ← fdr_bh argsort p_vals q;
  Ok (bool_decide (count_true h = length p_vals)).

End harness.

(** *** Notions used to state the properties *)

(** The valid entries of the input, [pvals[~np.isnan(pvals)]]. *)
Definition valid (pvals : list float) : list float :=
  filter (λ p, isnan p = false) pvals.

(** The threshold [(rank / m) * q] of index [k] (rank [k + 1]), as line 26
    computes it: the quotient rounded, then the product rounded. *)
Definition thr (m : nat) (q : float) (k : nat) : float :=
  fmul (fdiv (of_int (S k)) (of_int m)) q.

(** The valid entries are p-values. *)
Definition in_unit (pvals : list float) : Prop :=
  Forall (λ x, fle 0%float x = true ∧ fle x 1%float = true) (valid pvals).

Global Instance in_unit_dec pvals : Decision (in_unit pvals).
Proof. unfold in_unit. apply _. Defined.

(** The mask of line 29 and the value of [crit_p] when a rank passes. *)
Definition sig_mask (sp : list float) (q : float) : list bool :=
  imap (λ k x, fle x (thr (length sp) q k)) sp.

Definition crit_of (sp : list float) (q : float) : option float :=
  last (np_where (sig_mask sp q)) ≫= (sp !!.).

(** The array [adj_p_sorted] after the loop of lines 41-42, for the part
    [sp] of the sorted values that starts at index [k] of [m]. *)
Fixpoint adj_sorted (m k : nat) (sp : list float) : list float :=
  match sp with
  | [] => []
  | x :: rest =>
      match adj_sorted m (S k) rest with
      | [] => [x]
      | a :: r =>
          py_min 1%float (py_min (fmul (fdiv (of_int m) (of_int (S k))) x) a)
            :: a :: r
      end
  end.

(** The number that the backward pass compares with the adjusted value of
    the next rank, at index [k] (rank [k + 1]) of [m] and for the sorted
    p-value [x]: the p-value itself at the last rank (line 39),
    [(m / rank) * x] at the others (line 42). *)
Definition scaled (m k : nat) (x : float) : float :=
  if decide (S k = m) then x else fmul (fdiv (of_int m) (of_int (S k))) x.

(** The thresholds of line 24 ascend with the rank. *)
Definition thr_ascend (m : nat) (q : float) : Prop :=
  ∀ k k', (k ≤ k')%nat → (k' < m)%nat → fle (thr m q k) (thr m q k') = true.

(** At every rank of the sorted p-values [sp] the scaled value is a number,
    and the test of line 27, [p <= (rank / m) * q], gives the answer of the
    test of the scaled value against [q]. *)
Definition tests_agree (sp : list float) (q : float) : Prop :=
  ∀ k x, sp !! k = Some x →
    isnan (scaled (length sp) k x) = false ∧
    fle x (thr (length sp) q k) = fle (scaled (length sp) k x) q.

Section outputs.
Variable argsort : list float → list nat.

(** The values of [a] in the order of [argsort a], each with its
    position. *)
Definition sorted_pairs (a : list float) : list (float * nat) :=
  (λ j, (a !!! j, j)) <$> argsort a.

(** The array [sorted_pvals] of line 20. *)
Definition sorted_pvals (pvals : list float) : list float :=
  (sorted_pairs (valid pvals)).*1.

(** The ranking of the routine: the valid entries in the order of
    [sorted_pvals], each with its position in the input. *)
Definition ranked (pvals : list float) : list (float * nat) :=
  (λ vj, (vj.1, np_where (negb <$> (isnan <$> pvals)) !!! vj.2))
    <$> sorted_pairs (valid pvals).

(** The three outputs on an input with a valid entry. *)
Definition bh_flags (pvals : list float) (q : float) : list bool :=
  match crit_of (sorted_pvals pvals) q with
  | Some c => (λ p, if isnan p then false else fle p c) <$> pvals
  | None => replicate (length pvals) false
  end.

Definition bh_crit (pvals : list float) (q : float) : float :=
  match crit_of (sorted_pvals pvals) q with
  | Some c => c
  | None => 0%float
  end.

Definition bh_adj (pvals : list float) : list float :=
  let n := length (valid pvals) in
  mask_fill nan (negb <$> (isnan <$> pvals))
    (scatter (replicate n nan) (argsort (valid pvals))
       (adj_sorted n 0 (sorted_pvals pvals))).

End outputs.

(** The mask of the ranks that pass in the loops of the harness. *)
Definition pass_mask (p_vals : list float) (q : float) : list bool :=
  imap (λ i p, fle p (thr (length p_vals) q i)) p_vals.

End B64.

(** The key of a binary64 number in the lexicographic order on triples
    (class, exponent, mantissa), used to reason about its comparisons. *)
Definition sf_key (s : spec_float) : Z * Z * Z :=
  match s with
  | S754_infinity true => (-2, 0, 0)
  | S754_finite true m e => (-1, - e, Z.neg m)
  | S754_zero _ | S754_nan => (0, 0, 0)
  | S754_finite false m e => (1, e, Z.pos m)
  | S754_infinity false => (2, 0, 0)
  end%Z.

Definition lex_le (k1 k2 : Z * Z * Z) : Prop :=
  let '(c1, e1, m1) := k1 in
  let '(c2, e2, m2) := k2 in
  (c1 < c2 ∨ (c1 = c2 ∧ (e1 < e2 ∨ (e1 = e2 ∧ m1 ≤ m2))))%Z.

(** ** The runs of the test harness *)

(** Test 3: ten p-values of at most 0.001, all flagged. *)
Example test_3_all_significant :
  ∃ adj,
    fdr_bh p_vals_3 (py_float 0.05)
    = Ok (replicate 10 true, py_float 0.0010, adj).
Proof. eexists. vm_compute. reflexivity. Qed.

(** Test 4, and the manual run of test_fdr_simple.py: the smallest p-value
    0.01 is above its threshold 0.05 / 11, and so is every other rank;
    nothing is flagged. *)
Example test_4_none_significant :
  ∃ adj,
    fdr_bh p_vals_4 (py_float 0.05)
    = Ok (replicate 11 false, py_float 0, adj).
Proof. eexists. vm_compute. reflexivity. Qed.

(** A run with a missing entry and a tie: the entries keep their positions;
    the adjusted value of 0.01 is (3 / 1) * 0.01, both entries 0.5 keep 0.5
    (the last rank's raw value, below (3 / 2) * 0.5). *)
Example run_with_nan_and_tie :
  fdr_bh [py_float 0.5; NaN; py_float 0.01; py_float 0.5] (py_float 0.05)
  = Ok ([false; false; true; false], py_float 0.01,
        [py_float 0.5; NaN; py_float 0.03; py_float 0.5]).
Proof. vm_compute. reflexivity. Qed.

(** The same runs in binary64, with the merge sort for [np.argsort] and
    with the adjusted values: those of test 1 include 0.1057142857142857, the
    rounded (10 / 7) * 0.074. *)
Example test_1_binary64 :
  B64.fdr_bh B64.merge_argsort B64.p_vals_1 0.05%float
  = Ok ([true; true; false; false; false; false; false; false; false; false],
        0.008%float,
        [0.01; 0.04; 0.084; 0.084; 0.084; 0.1; 0.1057142857142857;
         0.216; 0.216; 0.216]%float).
Proof. vm_compute. reflexivity. Qed.

Example test_3_binary64 :
  B64.fdr_bh B64.merge_argsort B64.p_vals_3 0.05%float
  = Ok (replicate 10 true, 0.001%float, replicate 10 0.001%float).
Proof. vm_compute. reflexivity. Qed.

Example test_4_binary64 :
  B64.fdr_bh B64.merge_argsort B64.p_vals_4 0.05%float
  = Ok (replicate 11 false, 0%float,
        [0.10999999999999999; 0.10999999999999999; 0.10999999999999999;
         0.275; 0.33; 0.4583333333333333; 0.5499999999999999; 0.6875;
         0.7944444444444445; 0.8800000000000001; 0.9]%float).
Proof. vm_compute. reflexivity. Qed.

(** Rounding at work: on [0.1, 0.9, 0.9] the adjusted value of 0.1 is the
    rounded product 3 * 0.1, and at the level -5e-324 the threshold of rank
    1 of [0, 0] underflows to -0, which both entries meet. *)
Example run_with_rounding :
  B64.fdr_bh B64.merge_argsort [0.1; 0.9; 0.9]%float 0.05%float
  = Ok ([false; false; false], 0%float, [0.30000000000000004; 0.9; 0.9]%float) ∧
  B64.fdr_bh B64.merge_argsort [0; 0]%float (-5e-324)%float
  = Ok ([true; true], 0%float, [0; 0]%float).
Proof. split; vm_compute; reflexivity. Qed.

(** ** Properties of the operations *)

Lemma py_float_1 : py_float 1.0 = Fin 1.
Proof. unfold py_float. f_equal. by apply Qc_is_canon. Qed.

Lemma py_min_Fin a b : py_min (Fin a) (Fin b) = Fin (qmin a b).
Proof. unfold py_min, qmin. simpl. by case_bool_decide. Qed.

Lemma qmin_le_l a b : qmin a b ≤ a.
Proof.
  unfold qmin. case_bool_decide; [by apply Qclt_le_weak|apply Qcle_refl].
Qed.

Lemma qmin_le_r a b : qmin a b ≤ b.
Proof.
  unfold qmin. case_bool_decide; [apply Qcle_refl|by apply Qcnot_lt_le].
Qed.

Lemma qmin_glb a b c : c ≤ a → c ≤ b → c ≤ qmin a b.
Proof. unfold qmin. by case_bool_decide. Qed.

Lemma qmin_r a b : b ≤ a → qmin a b = b.
Proof.
  intros H. apply Qcle_antisym; [apply qmin_le_r|].
  apply qmin_glb; [done|apply Qcle_refl].
Qed.

Lemma qmin_le_iff a b c : qmin a b ≤ c ↔ a ≤ c ∨ b ≤ c.
Proof.
  split.
  - unfold qmin. case_bool_decide; auto.
  - intros [H|H]; (etrans; [|exact H]); [apply qmin_le_l|apply qmin_le_r].
Qed.

Lemma vals_cons_NaN pvals : vals (NaN :: pvals) = vals pvals.
Proof. done. Qed.

Lemma vals_cons_Fin x pvals : vals (Fin x :: pvals) = x :: vals pvals.
Proof. done. Qed.

Lemma elem_of_vals pvals x : x ∈ vals pvals ↔ Fin x ∈ pvals.
Proof.
  unfold vals. rewrite list_elem_of_omap. split.
  - intros ([|y] & Hy & Heq); naive_solver.
  - intros H. exists (Fin x). done.
Qed.

Lemma mask_select_valid pvals :
  mask_select pvals (negb <$> (isnan <$> pvals)) = Ok (Fin <$> vals pvals).
Proof.
  induction pvals as [|[|x] pvals IH]; [done|..];
    rewrite !fmap_cons; cbn [mask_select isnan negb]; by rewrite IH.
Qed.

Lemma mask_put_valid {A} (d : A) pvals vs :
  length vs = length (vals pvals) →
  mask_put (replicate (length pvals) d) (negb <$> (isnan <$> pvals)) vs
  = Ok (reinsert d pvals vs).
Proof.
  revert vs. induction pvals as [|[|x] pvals IH]; intros vs Hlen.
  - by destruct vs.
  - rewrite !fmap_cons. cbn [length replicate mask_put isnan negb reinsert].
    by rewrite IH.
  - rewrite !fmap_cons. cbn [length replicate mask_put isnan negb reinsert].
    destruct vs as [|v vs]; [done|]. simpl in Hlen. rewrite IH; [done|lia].
Qed.

(** *** Indexing *)

Lemma bind_Ok {A B} (a : A) (f : A → result B) : (Ok a ≫= f) = f a.
Proof. done. Qed.

Section indexing.
Context {A : Type}.

Lemma get_item_Some (a : list A) i x : a !! i = Some x → get_item a i = Ok x.
Proof. unfold get_item. by intros ->. Qed.

Lemma get_last_Some (a : list A) x : last a = Some x → get_last a = Ok x.
Proof. unfold get_last. by intros ->. Qed.

Lemma set_item_lt (a : list A) i v :
  (i < length a)%nat → set_item a i v = Ok (<[i:=v]> a).
Proof. unfold set_item. intros. by case_decide. Qed.

Lemma take_idx_pairs (a : list A) (ps : list (A * nat)) :
  (∀ v i, (v, i) ∈ ps → a !! i = Some v) → take_idx a ps.*2 = Ok ps.*1.
Proof.
  unfold take_idx. induction ps as [|[v i] ps IH]; intros Hps; [done|].
  rewrite !fmap_cons. cbn [mapM_result fst snd].
  rewrite (get_item_Some a i v) by (apply Hps; left).
  cbn. rewrite IH; [done|]. intros. apply Hps. by right.
Qed.

Lemma put_idx_ok (a : list A) idx vs :
  length idx = length vs → Forall (λ i, (i < length a)%nat) idx →
  put_idx a idx vs = Ok (scatter a idx vs).
Proof.
  revert a vs. induction idx as [|i idx IH]; intros a [|v vs] Hlen Hidx;
    simplify_eq/=; [done|].
  apply Forall_cons in Hidx as [Hi Hidx].
  rewrite set_item_lt by done. cbn. apply IH; [done|].
  by rewrite length_insert.
Qed.

Lemma length_scatter (a : list A) idx vs :
  length (scatter a idx vs) = length a.
Proof.
  revert a vs. induction idx as [|i idx IH]; intros a [|v vs]; simpl; try done.
  by rewrite IH, length_insert.
Qed.

Lemma scatter_notin (a : list A) idx vs i :
  i ∉ idx → scatter a idx vs !! i = a !! i.
Proof.
  revert a vs. induction idx as [|j idx IH]; intros a [|v vs] Hi; simpl; try done.
  apply not_elem_of_cons in Hi as [Hij Hi].
  rewrite IH by done. by apply list_lookup_insert_ne.
Qed.

Lemma scatter_lookup (a : list A) idx vs k i :
  NoDup idx → length idx = length vs → idx !! k = Some i → (i < length a)%nat →
  scatter a idx vs !! i = vs !! k.
Proof.
  revert a vs k. induction idx as [|j idx IH]; intros a [|v vs] k Hnd Hlen Hk Hi;
    simplify_eq/=.
  apply NoDup_cons in Hnd as [Hj Hnd]. destruct k as [|k]; simplify_eq/=.
  - rewrite scatter_notin by done. by apply list_lookup_insert_eq.
  - apply IH; [done..|]. by rewrite length_insert.
Qed.
End indexing.

(** Writing [f] of the sorted values back through the sorting permutation
    gives [f] of the values in their own order. *)
Lemma scatter_pairs {A B} (f : A → B) (a : list A) (b : list B) ps :
  ps ≡ₚ zip a (seq 0 (length a)) → length b = length a →
  scatter b ps.*2 (f <$> ps.*1) = f <$> a.
Proof.
  intros Hps Hlen.
  assert (ps.*2 ≡ₚ seq 0 (length a)) as Hidx.
  { rewrite Hps. by rewrite snd_zip by (rewrite length_seq; lia). }
  assert (NoDup ps.*2) as Hnd by (rewrite Hidx; apply NoDup_seq).
  apply list_eq. intros i. rewrite list_lookup_fmap.
  destruct (decide (i < length a)%nat) as [Hi|Hi].
  - destruct (lookup_lt_is_Some_2 a i Hi) as [v Hv]. rewrite Hv. simpl.
    assert ((v, i) ∈ ps) as Hin.
    { rewrite Hps. apply list_elem_of_lookup. exists i.
      apply lookup_zip_with_Some. exists v, i. split_and!; [done..|].
      by apply lookup_seq. }
    apply list_elem_of_lookup in Hin as [k Hk].
    rewrite (scatter_lookup _ _ _ k i); [|done|by rewrite !length_fmap|..|lia].
    + by rewrite !list_lookup_fmap, Hk.
    + by rewrite list_lookup_fmap, Hk.
  - rewrite (lookup_ge_None_2 a) by lia.
    apply lookup_ge_None_2. rewrite length_scatter. lia.
Qed.

(** *** Sorting *)

Global Instance sort_le_trans : Transitive sort_le.
Proof. intros [|x] [|y] [|z]; simpl; try done. apply Qcle_trans. Qed.

Global Instance sort_le_total : Total sort_le.
Proof. intros [|x] [|y]; simpl; auto. apply (total Qcle). Qed.

Global Instance sort_le_antisym : AntiSymm (=) sort_le.
Proof.
  intros [|x] [|y]; simpl; try done. intros. f_equal. by apply Qcle_antisym.
Qed.

Global Instance key_le_trans : Transitive key_le.
Proof. intros x y z. unfold key_le. apply sort_le_trans. Qed.

Global Instance key_le_total : Total key_le.
Proof. intros x y. unfold key_le. apply sort_le_total. Qed.

Lemma zip_seq_lookup {A} (a : list A) v i :
  (v, i) ∈ zip a (seq 0 (length a)) → a !! i = Some v.
Proof.
  intros [k Hk]%list_elem_of_lookup.
  apply lookup_zip_with_Some in Hk as (v' & i' & ? & Hv & Hi); simplify_eq.
  apply lookup_seq in Hi as [-> _]. done.
Qed.

(** The sorted values as the routine obtains them, [valid_pvals[sorted_idx]],
    are the values in ascending order. *)
Lemma take_idx_argsort vs :
  take_idx (Fin <$> vs) (argsort (Fin <$> vs)) = Ok (Fin <$> merge_sort Qcle vs).
Proof.
  unfold argsort. set (a := Fin <$> vs).
  set (ps := merge_sort key_le (zip a (seq 0 (length a)))).
  assert (ps ≡ₚ zip a (seq 0 (length a))) as Hps by apply merge_sort_Permutation.
  rewrite take_idx_pairs.
  - f_equal. apply (Sorted_unique sort_le).
    + apply Sorted_fmap with (R1 := key_le); [done|]. apply Sorted_merge_sort, _.
    + apply Sorted_fmap with (R1 := Qcle); [done|]. apply Sorted_merge_sort, _.
    + rewrite Hps, fst_zip by (rewrite length_seq; lia).
      unfold a. by rewrite merge_sort_Permutation.
  - intros v i Hin. apply zip_seq_lookup. by rewrite <-Hps.
Qed.

Lemma argsort_Permutation a : argsort a ≡ₚ seq 0 (length a).
Proof.
  unfold argsort. rewrite merge_sort_Permutation.
  by rewrite snd_zip by (rewrite length_seq; lia).
Qed.

Lemma length_argsort a : length (argsort a) = length a.
Proof. by rewrite argsort_Permutation, length_seq. Qed.

Lemma argsort_lt a : Forall (λ i, (i < length a)%nat) (argsort a).
Proof.
  rewrite argsort_Permutation. apply Forall_forall. intros i Hi.
  apply elem_of_seq in Hi. lia.
Qed.

(** Values that are a function of the sorted value land, unsorted, at the
    entries they belong to. *)
Lemma scatter_argsort {B} (f : float → B) (b : list B) vs :
  length b = length vs →
  scatter b (argsort (Fin <$> vs)) (f <$> (Fin <$> merge_sort Qcle vs))
  = f <$> (Fin <$> vs).
Proof.
  intros Hlen. pose proof (take_idx_argsort vs) as Htake.
  unfold argsort in *. set (a := Fin <$> vs) in *.
  set (ps := merge_sort key_le (zip a (seq 0 (length a)))) in *.
  assert (ps ≡ₚ zip a (seq 0 (length a))) as Hps by apply merge_sort_Permutation.
  rewrite take_idx_pairs in Htake.
  - injection Htake as <-. apply scatter_pairs; [done|].
    unfold a. by rewrite length_fmap.
  - intros v i Hin. apply zip_seq_lookup. by rewrite <-Hps.
Qed.

(** *** Masks *)

Lemma elem_of_where_from i mask k :
  k ∈ where_from i mask ↔ ∃ j, k = (i + j)%nat ∧ mask !! j = Some true.
Proof.
  revert i. induction mask as [|b mask IH]; intros i; simpl.
  - rewrite elem_of_nil. split; [done|]. by intros (j & _ & ?).
  - rewrite elem_of_app, IH. split.
    + intros [Hk|(j & -> & Hj)].
      * destruct b; [|by apply elem_of_nil in Hk].
        apply list_elem_of_singleton in Hk as ->. exists 0%nat. split; [lia|done].
      * exists (S j). split; [lia|done].
    + intros ([|j] & -> & Hj); simplify_eq/=.
      * left. rewrite Nat.add_0_r. apply list_elem_of_singleton. done.
      * right. exists j. split; [lia|done].
Qed.

Lemma last_where_from i mask k :
  last (where_from i mask) = Some k →
  ∃ j, k = (i + j)%nat ∧ mask !! j = Some true ∧
       ∀ j', (j < j')%nat → mask !! j' ≠ Some true.
Proof.
  revert i. induction mask as [|b mask IH]; intros i; simpl; [done|].
  rewrite last_app_Some. intros [Hl|[Hn Hl]].
  - apply IH in Hl as (j & -> & Hj & Hmax). exists (S j).
    split_and!; [lia|done|]. intros [|j'] ?; [lia|]. apply Hmax. lia.
  - destruct b; [|done]. injection Hl as <-. exists 0%nat.
    split_and!; [lia|done|].
    intros [|j'] ? Hj'; [lia|]. simpl in Hj'.
    apply last_None in Hn.
    assert ((S i + j')%nat ∈ where_from (S i) mask) as Hin
      by (apply elem_of_where_from; eauto).
    rewrite Hn in Hin. by apply elem_of_nil in Hin.
Qed.

Lemma last_np_where mask k :
  last (np_where mask) = Some k →
  mask !! k = Some true ∧ ∀ j, (k < j)%nat → mask !! j ≠ Some true.
Proof. unfold np_where. intros (j & -> & ? & ?)%last_where_from. done. Qed.

Lemma np_where_nil mask :
  np_where mask = [] ↔ ∀ j, mask !! j ≠ Some true.
Proof.
  unfold np_where. split.
  - intros Hnil j Hj.
    assert (j ∈ where_from 0 mask) as Hin by (apply elem_of_where_from; eauto).
    rewrite Hnil in Hin. by apply elem_of_nil in Hin.
  - intros Hall. apply elem_of_nil_inv. intros k (j & -> & Hj)%elem_of_where_from.
    by apply (Hall j).
Qed.

Lemma last_np_where_None mask :
  last (np_where mask) = None → ∀ j, mask !! j ≠ Some true.
Proof. intros Hl%last_None. by apply np_where_nil. Qed.

Lemma any_false mask : any mask = false ↔ np_where mask = [].
Proof.
  rewrite np_where_nil. unfold any. induction mask as [|b mask IH]; simpl.
  - naive_solver.
  - rewrite orb_false_iff, IH. split.
    + intros [Hb Hall] [|j]; simpl; [unfold id in Hb; congruence|apply Hall].
    + intros Hall. split.
      * destruct b; [|done]. by destruct (Hall 0%nat).
      * intros j. apply (Hall (S j)).
Qed.

(** *** Thresholds and the critical value *)

Lemma sig_mask_lookup sp q k :
  sig_mask sp q !! k = (λ x, fle (Fin x) (thr (length sp) q k)) <$> sp !! k.
Proof. unfold sig_mask. apply list_lookup_imap. Qed.

Lemma div_scalar_ok ranks n :
  n ≠ 0%nat →
  div_scalar ranks n = Ok ((λ r, Fin (of_nat r / of_nat n)) <$> ranks).
Proof. by destruct n. Qed.

Lemma int_div_ok a b :
  b ≠ 0%nat → int_div a b = Ok (Fin (of_nat a / of_nat b)).
Proof. by destruct b. Qed.

Lemma le_arrays_thresholds sp q :
  le_arrays (Fin <$> sp)
    ((λ r, fmul r q) <$>
       ((λ r, Fin (of_nat r / of_nat (length sp))) <$> seq 1 (length sp)))
  = Ok (sig_mask sp q).
Proof.
  unfold le_arrays.
  rewrite decide_True by (by rewrite !length_fmap, length_seq).
  f_equal. apply list_eq. intros k.
  rewrite sig_mask_lookup, lookup_zip_with, !list_lookup_fmap.
  destruct (sp !! k) as [x|] eqn:Hk; [|done]. simpl.
  apply lookup_lt_Some in Hk.
  rewrite lookup_seq_lt by lia. done.
Qed.

Lemma sig_mask_true sp q k :
  sig_mask sp q !! k = Some true ↔
  ∃ x, sp !! k = Some x ∧ fle (Fin x) (thr (length sp) q k) = true.
Proof.
  rewrite sig_mask_lookup, fmap_Some. split; intros (x & ? & ?); eauto.
Qed.

Lemma crit_of_None sp q :
  crit_of sp q = None ↔
  ∀ k x, sp !! k = Some x → fle (Fin x) (thr (length sp) q k) = false.
Proof.
  unfold crit_of. split.
  - intros Hc k x Hk.
    destruct (last (np_where (sig_mask sp q))) as [j|] eqn:Hl; simpl in Hc.
    + apply last_np_where in Hl as [(y & Hy & _)%sig_mask_true _]. congruence.
    + pose proof (last_np_where_None _ Hl k) as Hl'.
      apply not_true_is_false. intros Hpass. apply Hl', sig_mask_true. eauto.
  - intros Hall.
    destruct (last (np_where (sig_mask sp q))) as [j|] eqn:Hl; [|done].
    apply last_np_where in Hl as [(y & Hy & Hpass)%sig_mask_true _].
    rewrite (Hall j y) in Hpass; done.
Qed.

Lemma crit_of_Some sp q c :
  crit_of sp q = Some c ↔
  ∃ k, sp !! k = Some c ∧ fle (Fin c) (thr (length sp) q k) = true ∧
       ∀ k' x, (k < k')%nat → sp !! k' = Some x →
               fle (Fin x) (thr (length sp) q k') = false.
Proof.
  unfold crit_of. split.
  - intros Hc.
    destruct (last (np_where (sig_mask sp q))) as [k|] eqn:Hl; [|done].
    simpl in Hc. apply last_np_where in Hl as [(y & Hy & Hpass)%sig_mask_true Hmax].
    exists k. split_and!; [done|congruence|].
    intros k' x Hlt Hx. apply not_true_is_false. intros Hp.
    apply (Hmax k' Hlt), sig_mask_true. eauto.
  - intros (k & Hk & Hpass & Hmax).
    destruct (last (np_where (sig_mask sp q))) as [j|] eqn:Hl.
    + simpl. apply last_np_where in Hl as [(y & Hy & Hp)%sig_mask_true Hjmax].
      destruct (Nat.lt_trichotomy j k) as [Hjk|[->|Hjk]].
      * destruct (Hjmax k Hjk). apply sig_mask_true. eauto.
      * congruence.
      * rewrite (Hmax j y) in Hp; done.
    + destruct (last_np_where_None _ Hl k). apply sig_mask_true. eauto.
Qed.

(** The branch of lines 29-35, on the mask of the sorted values. *)
Lemma crit_branch sp q :
  (if negb (any (sig_mask sp q)) then
     Ok (py_float 0, replicate (length sp) false)
   else
     significant_idx ← get_last (np_where (sig_mask sp q));
     crit_p ← get_item (Fin <$> sp) significant_idx;
     Ok (crit_p, (λ p, fle p crit_p) <$> (Fin <$> sp)))
  = Ok (match crit_of sp q with
        | Some c => (Fin c, (λ p, fle p (Fin c)) <$> (Fin <$> sp))
        | None => (Fin 0, replicate (length sp) false)
        end).
Proof.
  unfold crit_of. destruct (any (sig_mask sp q)) eqn:Hany; simpl.
  - destruct (last (np_where (sig_mask sp q))) as [k|] eqn:Hl.
    + rewrite (get_last_Some _ k) by done. cbn.
      apply last_np_where in Hl as [(c & Hc & _)%sig_mask_true _]. rewrite Hc.
      rewrite (get_item_Some _ k (Fin c)) by (by rewrite list_lookup_fmap, Hc).
      done.
    + apply last_None, any_false in Hl. congruence.
  - apply any_false in Hany. by rewrite Hany.
Qed.

(** *** The backward pass *)

Section backward_pass.
Context (m : nat).

Lemma length_adjQ k sp : length (adjQ m k sp) = length sp.
Proof.
  revert k. induction sp as [|x sp IH]; intros k; simpl; [done|].
  specialize (IH (S k)). destruct (adjQ m (S k) sp); simpl in *; by rewrite <-IH.
Qed.

Lemma adjQ_cons_cons k x a r rest :
  adjQ m (S k) rest = a :: r →
  adjQ m k (x :: rest) = qmin 1 (qmin (of_nat m / of_nat (S k) * x) a) :: a :: r.
Proof. simpl. by intros ->. Qed.

Lemma adj_step_ok sp (adj : list float) i x next :
  sp !! i = Some x → adj !! (i + 1)%nat = Some (Fin next) →
  (i < length adj)%nat →
  adj_step m (Fin <$> sp) adj i
  = Ok (<[i:=Fin (qmin 1 (qmin (of_nat m / of_nat (S i) * x) next))]> adj).
Proof.
  intros Hx Hnext Hi. unfold adj_step.
  rewrite int_div_ok by lia. cbn.
  rewrite (get_item_Some _ i (Fin x)) by (by rewrite list_lookup_fmap, Hx).
  cbn. rewrite (get_item_Some _ (i + 1) (Fin next)) by done.
  cbn. rewrite set_item_lt by done.
  by rewrite py_float_1, Nat.add_1_r, !py_min_Fin.
Qed.

Lemma adj_loop sp n pre :
  length sp = m → (n < m)%nat → length pre = n →
  foldM (adj_step m (Fin <$> sp)) (pre ++ (Fin <$> adjQ m n (drop n sp)))
    (reverse (seq 0 n))
  = Ok (Fin <$> adjQ m 0 sp).
Proof.
  intros Hm. revert pre. induction n as [|n IH]; intros pre Hn Hpre.
  - destruct pre; [|done]. done.
  - rewrite seq_S, reverse_snoc. cbn [foldM plus].
    destruct (lookup_lt_is_Some_2 sp n) as [x Hx]; [lia|].
    destruct (adjQ m (S n) (drop (S n) sp)) as [|a r] eqn:Hadj.
    { apply (f_equal length) in Hadj.
      rewrite length_adjQ, length_drop in Hadj. simpl in Hadj. lia. }
    rewrite (adj_step_ok sp _ n x a); [|done|..|rewrite length_app; lia].
    2:{ rewrite lookup_app_r by lia.
        replace (n + 1 - length pre)%nat with 0%nat by lia. done. }
    cbn.
    rewrite insert_app_l by lia.
    rewrite insert_take_drop by lia.
    rewrite (drop_ge pre) by lia.
    rewrite <-(assoc_L (++)). cbn [app].
    rewrite <-(IH (take n pre)); [|lia|rewrite length_take; lia].
    do 3 f_equal.
    rewrite (drop_S sp x n) by done.
    by rewrite (adjQ_cons_cons n x a r) by done.
Qed.

End backward_pass.

Lemma set_last_replicate {A} (d v : A) n :
  set_last (replicate (S n) d) v = Ok (replicate n d ++ [v]).
Proof.
  unfold set_last. rewrite length_replicate. f_equal.
  rewrite insert_take_drop by (rewrite length_replicate; lia).
  rewrite take_replicate, drop_replicate.
  replace (n `min` S n)%nat with n by lia.
  by replace (S n - S n)%nat with 0%nat by lia.
Qed.

(** Lines 38-42: the array of adjusted values of the sorted list, handed to
    the rest [rest] of the routine. *)
Lemma adj_pass {B} sp x (rest : list float → result B) :
  last sp = Some x →
  (last_p ← get_last (Fin <$> sp);
   adj_p_sorted ← set_last (replicate (length sp) NaN) last_p;
   adj_p_sorted ←
     foldM (adj_step (length sp) (Fin <$> sp)) adj_p_sorted (range_down (length sp));
   rest adj_p_sorted)
  = rest (Fin <$> adjQ (length sp) 0 sp).
Proof.
  intros Hlast.
  rewrite (get_last_Some _ (Fin x)) by (by rewrite fmap_last, Hlast).
  rewrite bind_Ok. destruct (length sp) as [|n] eqn:Hlen.
  { destruct sp; done. }
  rewrite set_last_replicate, bind_Ok. unfold range_down.
  replace (S n - 1)%nat with n by lia.
  assert (replicate n NaN ++ [Fin x]
          = replicate n NaN ++ (Fin <$> adjQ (S n) n (drop n sp))) as ->.
  { rewrite last_lookup, Hlen in Hlast. simpl in Hlast.
    rewrite (drop_S sp x n) by done. by rewrite drop_ge by lia. }
  rewrite (adj_loop (S n) sp n (replicate n NaN));
    [done|done|lia|by rewrite length_replicate].
Qed.

(** *** The routine, step by step *)

Lemma reinsert_fmap {A} (d : A) (g : float → A) pvals :
  g NaN = d → reinsert d pvals (g <$> (Fin <$> vals pvals)) = g <$> pvals.
Proof.
  intros Hg. induction pvals as [|[|x] pvals IH]; [done|..].
  - rewrite vals_cons_NaN, fmap_cons. cbn [reinsert]. by rewrite IH, Hg.
  - rewrite vals_cons_Fin, !fmap_cons. cbn [reinsert]. by rewrite IH.
Qed.

Lemma length_sorted_vals pvals : length (sorted_vals pvals) = length (vals pvals).
Proof. unfold sorted_vals. by rewrite merge_sort_Permutation. Qed.

Lemma length_bh_adj_valid vs : length (bh_adj_valid vs) = length vs.
Proof. unfold bh_adj_valid. by rewrite length_scatter, length_replicate. Qed.

Lemma fdr_bh_nil q : fdr_bh [] q = Ok ([], Fin 0, []).
Proof. done. Qed.

Lemma fdr_bh_all_nan pvals q :
  pvals ≠ [] → vals pvals = [] →
  fdr_bh pvals q
  = Ok (replicate (length pvals) false, NaN, replicate (length pvals) NaN).
Proof.
  intros Hne Hv. unfold fdr_bh.
  rewrite decide_False by (by destruct pvals).
  lazy zeta. rewrite mask_select_valid, bind_Ok, Hv. done.
Qed.

Lemma fdr_bh_valid pvals q :
  vals pvals ≠ [] →
  fdr_bh pvals q = Ok (bh_flags pvals q, bh_crit pvals q, bh_adj pvals).
Proof.
  intros Hv. unfold fdr_bh.
  rewrite decide_False by (by destruct pvals).
  lazy zeta. rewrite mask_select_valid, bind_Ok.
  set (vs := vals pvals) in *.
  assert (length vs ≠ 0%nat) as Hlen by (by destruct vs).
  rewrite decide_False by (by rewrite length_fmap).
  rewrite take_idx_argsort, bind_Ok.
  set (sp := merge_sort Qcle vs).
  assert (length sp = length vs) as Hsp
    by (unfold sp; by rewrite merge_sort_Permutation).
  rewrite !(length_fmap Fin vs), <-!Hsp.
  rewrite div_scalar_ok, bind_Ok by lia.
  rewrite le_arrays_thresholds, bind_Ok.
  rewrite crit_branch, bind_Ok.
  destruct (last sp) as [x|] eqn:Hlast.
  2:{ apply last_None in Hlast. rewrite Hlast in Hsp. simpl in Hsp. lia. }
  assert (∀ {B} (b : list B),
    length b = length sp →
    Forall (λ i, (i < length b)%nat) (argsort (Fin <$> vs))) as Hidx.
  { intros B b Hb. rewrite Hb, Hsp, <-(length_fmap Fin vs). apply argsort_lt. }
  assert (∀ {B} (f : float → B) d,
    put_idx (replicate (length sp) d) (argsort (Fin <$> vs)) (f <$> (Fin <$> sp))
    = Ok (f <$> (Fin <$> vs))) as Hput.
  { intros B f d. rewrite put_idx_ok.
    - rewrite Hsp. f_equal. apply scatter_argsort. by rewrite length_replicate.
    - by rewrite length_argsort, !length_fmap.
    - apply Hidx. by rewrite length_replicate. }
  assert (put_idx (replicate (length sp) NaN) (argsort (Fin <$> vs))
            (Fin <$> adjQ (length sp) 0 sp) = Ok (bh_adj_valid vs)) as Hadj.
  { rewrite put_idx_ok.
    - unfold bh_adj_valid. by rewrite Hsp.
    - by rewrite length_argsort, !length_fmap, length_adjQ.
    - apply Hidx. by rewrite length_replicate. }
  unfold bh_flags, bh_crit, bh_adj, sorted_vals. fold vs. fold sp.
  destruct (crit_of sp q) as [c|] eqn:Hc.
  - rewrite (adj_pass sp x _ Hlast).
    rewrite Hput, bind_Ok, Hadj, bind_Ok.
    rewrite !mask_put_valid, !bind_Ok;
      [|by rewrite ?length_bh_adj_valid, ?length_fmap..].
    by rewrite reinsert_fmap.
  - rewrite (adj_pass sp x _ Hlast).
    replace (replicate (length sp) false)
      with ((λ _, false) <$> (Fin <$> sp)) at 2
      by (by rewrite (const_fmap _ _ false), !length_fmap by done).
    rewrite Hput, bind_Ok, Hadj, bind_Ok.
    rewrite !mask_put_valid, !bind_Ok;
      [|by rewrite ?length_bh_adj_valid, ?length_fmap..].
    rewrite reinsert_fmap by done. by rewrite (const_fmap _ _ false).
Qed.

(** *** Arithmetic of the ratios [m / rank] and [rank / m] *)

Lemma of_nat_pos n : (0 < n)%nat → 0 < of_nat n.
Proof.
  intros H. unfold of_nat. rewrite <-Z2Qc_inj_0.
  apply (proj1 (Z2Qc_inj_lt _ _)). lia.
Qed.

Lemma of_nat_le a b : (a ≤ b)%nat → of_nat a ≤ of_nat b.
Proof. intros H. unfold of_nat. apply (proj1 (Z2Qc_inj_le _ _)). lia. Qed.

Lemma of_nat_ne_0 n : (0 < n)%nat → of_nat n ≠ 0.
Proof. intros H. by apply not_symmetry, Qclt_not_eq, of_nat_pos. Qed.

Lemma Qcdiv_pos a b : 0 < a → 0 < b → 0 < a / b.
Proof. intros. apply Qcmult_pos_pos; [done|]. by apply Qcinv_pos. Qed.

Lemma ratio_last k x : of_nat (S k) / of_nat (S k) * x = x.
Proof. field. apply of_nat_ne_0. lia. Qed.

Lemma Qcdiv_anti (c a b : Qc) : 0 ≤ c → 0 < a → a ≤ b → c / b ≤ c / a.
Proof.
  intros Hc Ha Hab.
  assert (0 < b) as Hb by (by eapply Qclt_le_trans).
  apply (Qcmult_le_mono_pos_r _ _ (a * b)); [by apply Qcmult_pos_pos|].
  replace (c / b * (a * b)) with (c * a)
    by (field; by apply not_symmetry, Qclt_not_eq).
  replace (c / a * (a * b)) with (c * b)
    by (field; by apply not_symmetry, Qclt_not_eq).
  by apply Qcmult_le_mono_nonneg_l.
Qed.

Lemma ratio_anti m k k' x :
  0 ≤ x → (k ≤ k')%nat →
  of_nat m / of_nat (S k') * x ≤ of_nat m / of_nat (S k) * x.
Proof.
  intros Hx Hk. apply Qcmult_le_mono_nonneg_r; [done|].
  apply Qcdiv_anti.
  - apply (of_nat_le 0). lia.
  - apply of_nat_pos. lia.
  - apply of_nat_le. lia.
Qed.

Lemma ratio_le_iff m k x q :
  (0 < m)%nat →
  of_nat m / of_nat (S k) * x ≤ q ↔ x ≤ of_nat (S k) / of_nat m * q.
Proof.
  intros Hm.
  assert (0 < of_nat m) as HM by (by apply of_nat_pos).
  assert (0 < of_nat (S k)) as HK by (apply of_nat_pos; lia).
  rewrite (Qcmult_le_mono_pos_l _ q (of_nat (S k) / of_nat m))
    by (by apply Qcdiv_pos).
  replace (of_nat (S k) / of_nat m * (of_nat m / of_nat (S k) * x)) with x;
    [done|].
  field. split; by apply not_symmetry, Qclt_not_eq.
Qed.

Lemma frac_mono m k k' q :
  (0 < m)%nat → 0 ≤ q → (k ≤ k')%nat →
  of_nat (S k) / of_nat m * q ≤ of_nat (S k') / of_nat m * q.
Proof.
  intros Hm Hq Hk. apply Qcmult_le_mono_nonneg_r; [done|].
  apply Qcmult_le_mono_nonneg_r.
  - apply Qclt_le_weak, Qcinv_pos. by apply of_nat_pos.
  - apply of_nat_le. lia.
Qed.

(** *** The step-down values of an ascending list *)

Lemma Sorted_lookup_le (l : list Qc) i j x y :
  Sorted Qcle l → (i ≤ j)%nat → l !! i = Some x → l !! j = Some y → x ≤ y.
Proof.
  intros Hl%(Sorted_StronglySorted Qcle). revert i j.
  induction Hl as [|z l Hl IH Hz]; intros i j Hij Hi Hj; [done|].
  destruct i as [|i], j as [|j]; simplify_eq/=; [apply Qcle_refl|..|lia|].
  - eapply Forall_lookup_1 in Hz; done.
  - eapply IH; [|done..]. lia.
Qed.

Lemma unit_le_1 (sp : list Qc) :
  Forall (λ y, 0 ≤ y ∧ y ≤ 1) sp → Forall (λ y, y ≤ 1) sp.
Proof. intros H. eapply Forall_impl; [done|]. by intros ? [_ ?]. Qed.

Section step_down.
Context (m : nat).

Lemma adjQ_tail k x rest i :
  adjQ m k (x :: rest) !! S i = adjQ m (S k) rest !! i.
Proof. simpl. by destruct (adjQ m (S k) rest). Qed.

Lemma adjQ_nil_inv k sp : adjQ m k sp = [] → sp = [].
Proof.
  intros H. apply (f_equal length) in H. rewrite length_adjQ in H.
  by destruct sp.
Qed.

Lemma adjQ_head_le_ratio k x rest a r :
  (k + S (length rest))%nat = m →
  adjQ m k (x :: rest) = a :: r →
  a ≤ of_nat m / of_nat (S k) * x.
Proof.
  intros Hm. simpl. destruct (adjQ m (S k) rest) as [|a' r'] eqn:Hrest.
  - apply adjQ_nil_inv in Hrest as ->. simpl in Hm. intros [= <- <-].
    replace m with (S k) by lia. rewrite ratio_last. apply Qcle_refl.
  - intros [= <- <-]. etrans; [apply qmin_le_r|apply qmin_le_l].
Qed.

Lemma adjQ_le_1 k sp :
  Forall (λ x, x ≤ 1) sp → Forall (λ a, a ≤ 1) (adjQ m k sp).
Proof.
  intros Hsp. revert k. induction Hsp as [|x rest Hx Hrest IH]; intros k;
    simpl; [done|].
  specialize (IH (S k)). destruct (adjQ m (S k) rest) as [|a' r'].
  - by repeat constructor.
  - constructor; [apply qmin_le_l|done].
Qed.



(** Two equal neighbours get the same step-down value. *)
Lemma adjQ_tie_head k x rest a a' r :
  (k + S (S (length rest)))%nat = m →
  0 ≤ x → x ≤ 1 → Forall (λ y, y ≤ 1) rest →
  adjQ m k (x :: x :: rest) = a :: a' :: r → a = a'.
Proof.
  intros Hm Hx0 Hx1 Hrest.
  destruct (adjQ m (S k) (x :: rest)) as [|a1 r1] eqn:Hnext.
  { by apply adjQ_nil_inv in Hnext. }
  rewrite (adjQ_cons_cons m k x a1 r1) by done. intros [= <- <- <-].
  assert (a1 ≤ 1) as H1.
  { pose proof (adjQ_le_1 (S k) (x :: rest)) as Hle.
    rewrite Hnext in Hle. apply (Forall_cons_1 (λ a, a ≤ 1) a1 r1).
    apply Hle. by constructor. }
  assert (a1 ≤ of_nat m / of_nat (S k) * x) as H2.
  { etrans; [eapply (adjQ_head_le_ratio (S k)); [|done]; simpl; lia|].
    apply ratio_anti; [done|lia]. }
  by rewrite (qmin_r _ a1), (qmin_r 1 a1).
Qed.

Lemma adjQ_tie k sp i j x :
  (k + length sp)%nat = m → Sorted Qcle sp →
  Forall (λ y, 0 ≤ y ∧ y ≤ 1) sp → (i ≤ j)%nat →
  sp !! i = Some x → sp !! j = Some x →
  adjQ m k sp !! i = adjQ m k sp !! j.
Proof.
  revert k i j. induction sp as [|y rest IH]; intros k i j Hm Hs Hu Hij Hi Hj;
    [done|].
  apply Forall_cons in Hu as [[Hy0 Hy1] Hu].
  assert (Sorted Qcle rest) as Hs' by (by inv Hs).
  destruct i as [|i], j as [|j]; [done| |lia|].
  - simpl in Hi, Hj. injection Hi as ->. destruct rest as [|z rest']; [done|].
    assert (z = x) as ->.
    { apply Qcle_antisym.
      - eapply (Sorted_lookup_le (z :: rest') 0 j); [done|lia|done..].
      - eapply (Sorted_lookup_le (x :: z :: rest') 0 1); [done|lia|done..]. }
    rewrite adjQ_tail.
    rewrite <-(IH (S k) 0%nat j); [|simpl in *; lia|done..|lia|done|done].
    destruct (adjQ m k (x :: x :: rest')) as [|a [|a' r]] eqn:Hadj.
    { by apply adjQ_nil_inv in Hadj. }
    { apply (f_equal length) in Hadj. rewrite length_adjQ in Hadj. done. }
    pose proof (adjQ_tail k x (x :: rest') 0) as Ht. rewrite Hadj in Ht.
    rewrite <-Ht. simpl. f_equal.
    eapply (adjQ_tie_head k x rest'); [simpl in *; lia|done..| |done].
    apply Forall_cons in Hu as [_ Hu].
    by apply unit_le_1.
  - simpl in Hi, Hj. rewrite !adjQ_tail.
    apply (IH (S k)); [simpl in *; lia|done..|lia|done|done].
Qed.

(** Below a bound [qv]: some later rank meets the bound with its own ratio. *)
Lemma adjQ_le_iff k sp i a qv :
  (k + length sp)%nat = m → Forall (λ x, x ≤ 1) sp →
  adjQ m k sp !! i = Some a →
  a ≤ qv ↔ ∃ j y, (i ≤ j)%nat ∧ sp !! j = Some y ∧
                  of_nat m / of_nat (S (k + j)) * y ≤ qv.
Proof.
  revert k i a. induction sp as [|x rest IH]; intros k i a Hm Hu Ha; [done|].
  apply Forall_cons in Hu as [Hx1 Hu].
  destruct i as [|i].
  - destruct (adjQ m (S k) rest) as [|a' r] eqn:Hrest.
    + pose proof Hrest as ->%adjQ_nil_inv. simpl in Ha, Hm.
      injection Ha as <-. split.
      * intros Hle. exists 0%nat, x. split_and!; [lia|done|].
        replace m with (S (k + 0)) by lia. by rewrite ratio_last.
      * intros (j & y & _ & Hj & Hle). destruct j as [|j]; [|done].
        injection Hj as <-. revert Hle.
        replace m with (S (k + 0)) by lia. by rewrite ratio_last.
    + rewrite (adjQ_cons_cons m k x a' r) in Ha by done.
      injection Ha as <-.
      assert (a' ≤ 1) as Ha1.
      { pose proof (adjQ_le_1 (S k) rest Hu) as Hle. rewrite Hrest in Hle.
        by apply Forall_cons in Hle as [? _]. }
      specialize (IH (S k) 0%nat a').
      rewrite Hrest in IH. specialize (IH ltac:(simpl in Hm; lia) Hu eq_refl).
      rewrite !qmin_le_iff. split.
      * intros [H1|[Hx|Ha']].
        -- assert (a' ≤ qv) as Ha' by (by etrans).
           apply IH in Ha' as (j & y & _ & Hj & Hle).
           exists (S j), y. split_and!; [lia|done|].
           by replace (k + S j)%nat with (S k + j)%nat by lia.
        -- exists 0%nat, x. split_and!; [lia|done|]. by rewrite Nat.add_0_r.
        -- apply IH in Ha' as (j & y & _ & Hj & Hle).
           exists (S j), y. split_and!; [lia|done|].
           by replace (k + S j)%nat with (S k + j)%nat by lia.
      * intros ([|j] & y & _ & Hj & Hle).
        -- injection Hj as <-. rewrite Nat.add_0_r in Hle. auto.
        -- right. right. apply IH. exists j, y. split_and!; [lia|done|].
           by replace (S k + j)%nat with (k + S j)%nat by lia.
  - rewrite adjQ_tail in Ha.
    rewrite (IH (S k) i a) by (simpl in Hm; done || lia). split.
    + intros (j & y & Hij & Hj & Hle). exists (S j), y.
      split_and!; [lia|done|].
      by replace (k + S j)%nat with (S k + j)%nat by lia.
    + intros ([|j] & y & Hij & Hj & Hle); [lia|]. exists j, y.
      split_and!; [lia|done|].
      by replace (S k + j)%nat with (k + S j)%nat by lia.
Qed.

End step_down.

(** On p-values, the step-down value of a rank depends on its value only. *)
Lemma adjQ_adj_value sp :
  Sorted Qcle sp → Forall (λ y, 0 ≤ y ∧ y ≤ 1) sp →
  adjQ (length sp) 0 sp = adj_value sp <$> sp.
Proof.
  intros Hs Hu. apply list_eq. intros i. rewrite list_lookup_fmap.
  destruct (sp !! i) as [x|] eqn:Hi; simpl.
  - unfold adj_value.
    destruct (list_find (x =.) sp) as [[k y]|] eqn:Hfind.
    + apply list_find_Some in Hfind as (Hk & <- & Hmin). simpl.
      assert (k ≤ i)%nat as Hki.
      { destruct (decide (k ≤ i)%nat); [done|].
        destruct (Hmin i x); [done|lia|done]. }
      rewrite <-(adjQ_tie (length sp) 0 sp k i x) by done.
      destruct (lookup_lt_is_Some_2 (adjQ (length sp) 0 sp) k) as [a Ha].
      { rewrite length_adjQ. by eapply lookup_lt_Some. }
      by rewrite Ha.
    + apply list_find_None in Hfind.
      eapply Forall_lookup_1 in Hfind; [|done]. done.
  - apply lookup_ge_None_2. rewrite length_adjQ. by apply lookup_ge_None_1.
Qed.

Lemma adj_value_lookup sp k x :
  Sorted Qcle sp → Forall (λ y, 0 ≤ y ∧ y ≤ 1) sp →
  sp !! k = Some x → adjQ (length sp) 0 sp !! k = Some (adj_value sp x).
Proof.
  intros Hs Hu Hk. by rewrite adjQ_adj_value, list_lookup_fmap, Hk by done.
Qed.

(** *** The sorted values *)

Lemma Sorted_sorted_vals pvals : Sorted Qcle (sorted_vals pvals).
Proof. apply Sorted_merge_sort, _. Qed.

Lemma sorted_vals_Permutation pvals : sorted_vals pvals ≡ₚ vals pvals.
Proof. apply merge_sort_Permutation. Qed.


Lemma in_unit_sorted_vals pvals :
  in_unit pvals → Forall (λ y, 0 ≤ y ∧ y ≤ 1) (sorted_vals pvals).
Proof. unfold in_unit. by rewrite sorted_vals_Permutation. Qed.

(** On p-values the adjusted value of an entry is a function of its value. *)
Lemma bh_adj_pointwise pvals :
  in_unit pvals → bh_adj pvals = adj_float (sorted_vals pvals) <$> pvals.
Proof.
  intros Hu. unfold bh_adj, bh_adj_valid.
  rewrite <-(length_sorted_vals pvals). fold (sorted_vals pvals).
  rewrite adjQ_adj_value
    by auto using Sorted_sorted_vals, in_unit_sorted_vals.
  rewrite <-(list_fmap_compose (adj_value _) Fin).
  change (Fin ∘ adj_value (sorted_vals pvals))
    with (adj_float (sorted_vals pvals) ∘ Fin).
  rewrite (list_fmap_compose Fin (adj_float _)).
  rewrite length_sorted_vals.
  rewrite scatter_argsort by (by rewrite length_replicate).
  by rewrite reinsert_fmap.
Qed.

(** *** The decision read off the adjusted value *)

Lemma fle_thr m qv k y :
  fle (Fin y) (thr m (Fin qv) k)
  = bool_decide (y ≤ of_nat (S k) / of_nat m * qv).
Proof. done. Qed.

Lemma crit_of_NaN sp : crit_of sp NaN = None.
Proof. apply crit_of_None. done. Qed.

Lemma bh_decision sp q k x :
  Sorted Qcle sp → Forall (λ y, 0 ≤ y ∧ y ≤ 1) sp → sp !! k = Some x →
  fle (Fin (adj_value sp x)) q
  = match crit_of sp q with
    | Some c => bool_decide (x ≤ c)
    | None => false
    end.
Proof.
  intros Hs Hu Hk.
  assert (0 < length sp)%nat as Hm by (apply lookup_lt_Some in Hk; lia).
  assert (Forall (λ y, y ≤ 1) sp) as Hu1.
  { by apply unit_le_1. }
  pose proof (adj_value_lookup sp k x Hs Hu Hk) as Ha.
  destruct q as [|qv]; [by rewrite crit_of_NaN|].
  pose proof (adjQ_le_iff (length sp) 0 sp k _ qv eq_refl Hu1 Ha) as Hiff.
  simpl. destruct (crit_of sp (Fin qv)) as [c|] eqn:Hc.
  - apply crit_of_Some in Hc as (ks & Hks & Hpass & Hmax).
    rewrite fle_thr in Hpass. apply bool_decide_eq_true in Hpass.
    apply bool_decide_ext. rewrite Hiff. split.
    + intros (j & y & Hkj & Hj & Hle).
      apply ratio_le_iff in Hle; [|done].
      destruct (decide (ks < j)%nat) as [Hlt|Hge].
      { specialize (Hmax j y Hlt Hj). rewrite fle_thr in Hmax.
        by apply bool_decide_eq_false in Hmax. }
      eapply (Sorted_lookup_le sp k ks); [done|lia|done..].
    + intros Hxc. destruct (decide (k ≤ ks)%nat) as [Hle|Hgt].
      { exists ks, c. split_and!; [done..|]. by apply ratio_le_iff. }
      assert (x = c) as ->.
      { apply Qcle_antisym; [done|].
        eapply (Sorted_lookup_le sp ks k); [done|lia|done..]. }
      assert (0 ≤ c) as Hc0.
      { eapply Forall_lookup_1 in Hu; [|exact Hk]. by destruct Hu. }
      assert (0 ≤ qv) as Hq0.
      { destruct (Qclt_le_dec qv 0) as [Hneg|]; [|done]. exfalso.
        apply (Qcle_not_lt _ _ Hc0). eapply Qcle_lt_trans; [exact Hpass|].
        rewrite <-(Qcmult_0_r (of_nat (S ks) / of_nat (length sp))).
        apply Qcmult_lt_mono_pos_l; [|done].
        apply Qcdiv_pos; apply of_nat_pos; lia. }
      specialize (Hmax k c ltac:(lia) Hk). rewrite fle_thr in Hmax.
      apply bool_decide_eq_false in Hmax. destruct Hmax.
      etrans; [exact Hpass|]. apply frac_mono; [done..|lia].
  - apply bool_decide_eq_false. rewrite Hiff. intros (j & y & _ & Hj & Hle).
    apply ratio_le_iff in Hle; [|done].
    pose proof (proj1 (crit_of_None _ _) Hc j y Hj) as Hf.
    rewrite fle_thr in Hf. by apply bool_decide_eq_false in Hf.
Qed.

(** *** From entries to ranks *)

Lemma vals_ne_nil pvals i x : pvals !! i = Some (Fin x) → vals pvals ≠ [].
Proof.
  intros Hi Hnil. assert (x ∈ vals pvals) as Hin.
  { apply elem_of_vals, list_elem_of_lookup. eauto. }
  rewrite Hnil in Hin. by apply elem_of_nil in Hin.
Qed.

Lemma sorted_vals_lookup pvals i x :
  pvals !! i = Some (Fin x) → ∃ k, sorted_vals pvals !! k = Some x.
Proof.
  intros Hi. apply list_elem_of_lookup. rewrite sorted_vals_Permutation.
  apply elem_of_vals, list_elem_of_lookup. eauto.
Qed.


(** * The routine in binary64

    The same steps for [B64.fdr_bh]. *)

(** ** The order of binary64 *)

(** A non-NaN float as a key in the lexicographic order on triples: the
    comparisons of binary64 are the comparisons of the keys. *)
Lemma SFleb_key a b :
  SFleb a b = true ↔ a ≠ S754_nan ∧ b ≠ S754_nan ∧ lex_le (sf_key a) (sf_key b).
Proof.
  unfold SFleb.
  destruct a as [[]|[]| |[] m1 e1], b as [[]|[]| |[] m2 e2]; simpl;
    try (split; [intros; split_and!; (done || lia)|intros (? & ? & ?); (done || lia)]).
  all: change (Pos.compare_cont Eq m1 m2) with (m1 ?= m2)%positive.
  all: destruct (Z.compare_spec e1 e2), (Pos.compare_spec m1 m2); simpl;
    (split; [intros; split_and!; (done || lia)|intros (? & ? & ?); (done || lia)]).
Qed.

Lemma SFltb_key a b :
  SFltb a b = true ↔ a ≠ S754_nan ∧ b ≠ S754_nan ∧ ¬ lex_le (sf_key b) (sf_key a).
Proof.
  unfold SFltb.
  destruct a as [[]|[]| |[] m1 e1], b as [[]|[]| |[] m2 e2]; simpl;
    try (split; [intros; split_and!; (done || lia)|intros (? & ? & ?); (done || lia)]).
  all: change (Pos.compare_cont Eq m1 m2) with (m1 ?= m2)%positive.
  all: destruct (Z.compare_spec e1 e2), (Pos.compare_spec m1 m2); simpl;
    (split; [intros; split_and!; (done || lia)|intros (? & ? & ?); (done || lia)]).
Qed.

Lemma lex_le_trans k1 k2 k3 : lex_le k1 k2 → lex_le k2 k3 → lex_le k1 k3.
Proof. destruct k1 as [[??]?], k2 as [[??]?], k3 as [[??]?]. simpl. lia. Qed.

Lemma lex_le_total k1 k2 : lex_le k1 k2 ∨ lex_le k2 k1.
Proof. destruct k1 as [[??]?], k2 as [[??]?]. simpl. lia. Qed.

Lemma isnan_true_b64 x : B64.isnan x = true ↔ Prim2SF x = S754_nan.
Proof.
  unfold B64.isnan, PrimFloat.is_nan. rewrite FloatAxioms.eqb_spec. unfold SFeqb.
  destruct (Prim2SF x) as [[]|[]| |[] m e]; simpl; try done;
    rewrite Z.compare_refl, Pos.compare_cont_refl; done.
Qed.

Lemma isnan_false_b64 x : B64.isnan x = false ↔ Prim2SF x ≠ S754_nan.
Proof. rewrite <-isnan_true_b64. by destruct (B64.isnan x). Qed.

Lemma fle_key_b64 a b :
  B64.fle a b = true ↔
  B64.isnan a = false ∧ B64.isnan b = false ∧
  lex_le (sf_key (Prim2SF a)) (sf_key (Prim2SF b)).
Proof. unfold B64.fle. by rewrite leb_spec, SFleb_key, !isnan_false_b64. Qed.

Lemma flt_key_b64 a b :
  B64.flt a b = true ↔
  B64.isnan a = false ∧ B64.isnan b = false ∧
  ¬ lex_le (sf_key (Prim2SF b)) (sf_key (Prim2SF a)).
Proof. unfold B64.flt. by rewrite ltb_spec, SFltb_key, !isnan_false_b64. Qed.

Lemma fle_refl_b64 x : B64.isnan x = false → B64.fle x x = true.
Proof.
  intros Hx. apply fle_key_b64. split_and!; [done..|].
  destruct (lex_le_total (sf_key (Prim2SF x)) (sf_key (Prim2SF x))); done.
Qed.

Lemma fle_trans_b64 a b c :
  B64.fle a b = true → B64.fle b c = true → B64.fle a c = true.
Proof.
  rewrite !fle_key_b64. intros (? & ? & ?) (? & ? & ?).
  split_and!; [done..|]. by eapply lex_le_trans.
Qed.

Lemma fle_total_b64 a b :
  B64.isnan a = false → B64.isnan b = false →
  B64.fle a b = true ∨ B64.fle b a = true.
Proof.
  intros Ha Hb. rewrite !fle_key_b64.
  destruct (lex_le_total (sf_key (Prim2SF a)) (sf_key (Prim2SF b))); auto.
Qed.

Lemma flt_fle_b64 a b : B64.flt a b = true → B64.fle a b = true.
Proof.
  rewrite flt_key_b64, fle_key_b64. intros (? & ? & Hn).
  split_and!; [done..|].
  destruct (lex_le_total (sf_key (Prim2SF a)) (sf_key (Prim2SF b))); done.
Qed.

Lemma fle_isnan_b64 a b :
  B64.fle a b = true → B64.isnan a = false ∧ B64.isnan b = false.
Proof. rewrite fle_key_b64. by intros (? & ? & _). Qed.

(** [min(a, b)] is one of its arguments, and at most the first when that
    one is a number. *)
Lemma py_min_le_l_b64 a b : B64.isnan a = false → B64.fle (B64.py_min a b) a = true.
Proof.
  intros Ha. unfold B64.py_min. destruct (B64.flt b a) eqn:Hlt.
  - by apply flt_fle_b64.
  - by apply fle_refl_b64.
Qed.

Global Instance sort_le_trans_b64 : Transitive B64.sort_le.
Proof.
  intros a b c. unfold B64.sort_le. rewrite !orb_True, !Is_true_true.
  intros Hab [Hc|Hbc]; [by left|]. right.
  destruct Hab as [Hb|Hab].
  - apply fle_isnan_b64 in Hbc as [? _]. congruence.
  - by eapply fle_trans_b64.
Qed.

Global Instance sort_le_total_b64 : Total B64.sort_le.
Proof.
  intros a b. unfold B64.sort_le. rewrite !orb_True, !Is_true_true.
  destruct (B64.isnan a) eqn:Ha; [by right; left|].
  destruct (B64.isnan b) eqn:Hb; [by left; left|].
  destruct (fle_total_b64 a b Ha Hb); auto.
Qed.

Global Instance key_le_trans_b64 : Transitive B64.key_le.
Proof. intros x y z. unfold B64.key_le. apply sort_le_trans_b64. Qed.

Global Instance key_le_total_b64 : Total B64.key_le.
Proof. intros x y. unfold B64.key_le. apply sort_le_total_b64. Qed.

(** ** Masks: selection and assignment *)

Lemma where_from_shift s mask : where_from s mask = (λ i, s + i)%nat <$> np_where mask.
Proof.
  unfold np_where. revert s. induction mask as [|b mask IH]; intros s; [done|].
  cbn [where_from]. rewrite fmap_app, (IH (S s)), (IH 1%nat), <-list_fmap_compose.
  f_equal.
  - destruct b; [|done]. simpl. by rewrite Nat.add_0_r.
  - apply list_fmap_ext. intros _ i _. simpl. lia.
Qed.

Lemma np_where_cons b mask :
  np_where (b :: mask) = (if b then [0%nat] else []) ++ (S <$> np_where mask).
Proof. unfold np_where at 1. cbn [where_from]. by rewrite where_from_shift. Qed.

Lemma length_mask_fill {A} (d : A) mask vs : length (mask_fill d mask vs) = length mask.
Proof.
  revert vs. induction mask as [|[] mask IH]; intros vs; simpl; [done|..].
  - destruct vs; simpl; by rewrite IH.
  - by rewrite IH.
Qed.

Lemma mask_put_fill {A} (d : A) mask vs :
  length vs = count_true mask →
  mask_put (replicate (length mask) d) mask vs = Ok (mask_fill d mask vs).
Proof.
  revert vs. induction mask as [|[] mask IH]; intros vs Hlen.
  - by destruct vs.
  - destruct vs as [|v vs]; [done|]. cbn [length replicate mask_put mask_fill].
    rewrite IH; [done|]. simpl in Hlen. lia.
  - cbn [length replicate mask_put mask_fill]. by rewrite IH.
Qed.

(** The value written for the [j]-th true entry of the mask stands at the
    position of that entry; a false entry keeps the fill value. *)
Lemma mask_fill_where {A} (d : A) mask vs j i :
  np_where mask !! j = Some i → (j < length vs)%nat →
  mask_fill d mask vs !! i = vs !! j.
Proof.
  revert vs j i. induction mask as [|b mask IH]; intros vs j i Hj Hlt; [done|].
  rewrite np_where_cons in Hj. destruct b; cbn [mask_fill].
  - destruct vs as [|v vs]; [simpl in Hlt; lia|].
    destruct j as [|j]; simpl in Hj.
    + by injection Hj as <-.
    + rewrite list_lookup_fmap in Hj.
      destruct (np_where mask !! j) as [i'|] eqn:Hi'; [|done].
      injection Hj as <-. simpl. apply IH; [done|]. simpl in Hlt. lia.
  - simpl in Hj. rewrite list_lookup_fmap in Hj.
    destruct (np_where mask !! j) as [i'|] eqn:Hi'; [|done].
    injection Hj as <-. simpl. by apply IH.
Qed.

Lemma NoDup_np_where mask : NoDup (np_where mask).
Proof.
  unfold np_where. generalize 0%nat.
  induction mask as [|b mask IH]; intros s; simpl; [constructor|].
  apply NoDup_app. split_and!.
  - destruct b; [apply NoDup_singleton|constructor].
  - intros n Hn (j & -> & _)%elem_of_where_from.
    destruct b; [|by apply elem_of_nil in Hn].
    apply list_elem_of_singleton in Hn. lia.
  - apply IH.
Qed.

Lemma mask_fill_replicate {A} (d : A) mask n :
  mask_fill d mask (replicate n d) = replicate (length mask) d.
Proof.
  revert n. induction mask as [|[] mask IH]; intros n; simpl; [done|..].
  - destruct n as [|n]; simpl; f_equal; [apply (IH 0%nat)|apply IH].
  - by rewrite IH.
Qed.

Lemma mask_fill_false {A} (d : A) mask vs i :
  mask !! i = Some false → mask_fill d mask vs !! i = Some d.
Proof.
  revert vs i. induction mask as [|b mask IH]; intros vs [|i] Hi; simplify_eq/=.
  - done.
  - destruct b; [destruct vs|]; simpl; by apply IH.
Qed.

Lemma valid_cons_b64 p pvals :
  B64.valid (p :: pvals)
  = if B64.isnan p then B64.valid pvals else p :: B64.valid pvals.
Proof.
  unfold B64.valid. rewrite filter_cons.
  destruct (B64.isnan p); by case_decide.
Qed.

Lemma mask_select_b64 pvals :
  mask_select pvals (negb <$> (B64.isnan <$> pvals)) = Ok (B64.valid pvals).
Proof.
  induction pvals as [|p pvals IH]; [done|].
  rewrite !fmap_cons, valid_cons_b64. cbn [mask_select]. rewrite IH, bind_Ok.
  by destruct (B64.isnan p).
Qed.

Lemma count_true_valid_b64 pvals :
  count_true (negb <$> (B64.isnan <$> pvals)) = length (B64.valid pvals).
Proof.
  induction pvals as [|p pvals IH]; [done|].
  rewrite !fmap_cons, valid_cons_b64. cbn [count_true]. rewrite IH.
  by destruct (B64.isnan p).
Qed.

(** The [j]-th valid entry, and where it stands in the input. *)
Lemma valid_lookup_b64 pvals j :
  B64.valid pvals !! j
  = np_where (negb <$> (B64.isnan <$> pvals)) !! j ≫= (pvals !!.).
Proof.
  revert j. induction pvals as [|p pvals IH]; intros j; [done|].
  rewrite !fmap_cons, valid_cons_b64, np_where_cons.
  destruct (B64.isnan p); simpl.
  - rewrite IH, list_lookup_fmap.
    by destruct (np_where _ !! j).
  - destruct j as [|j]; [done|]. simpl.
    rewrite IH, list_lookup_fmap. by destruct (np_where _ !! j).
Qed.

Lemma mask_fill_fmap_b64 {A} (d : A) (g : PrimFloat.float → A) pvals :
  mask_fill d (negb <$> (B64.isnan <$> pvals)) (g <$> B64.valid pvals)
  = (λ p, if B64.isnan p then d else g p) <$> pvals.
Proof.
  induction pvals as [|p pvals IH]; [done|].
  rewrite !fmap_cons, valid_cons_b64.
  destruct (B64.isnan p); cbn [negb mask_fill fmap list_fmap]; by rewrite <-IH.
Qed.

(** ** Sorting *)

Lemma pairs_seq_b64 (a : list PrimFloat.float) :
  (λ j, (a !!! j, j)) <$> seq 0 (length a) = zip a (seq 0 (length a)).
Proof.
  apply list_eq. intros i. rewrite list_lookup_fmap, lookup_zip_with.
  destruct (a !! i) as [v|] eqn:Hi.
  - rewrite lookup_seq_lt by (by eapply lookup_lt_Some). simpl.
    by rewrite (list_lookup_total_correct _ _ _ Hi).
  - rewrite lookup_seq_ge by (by apply lookup_ge_None). done.
Qed.

(** The merge sort keeps the promise of [np.argsort]. *)
Lemma merge_argsort_sorts_b64 a : B64.sorts a (B64.merge_argsort a).
Proof.
  unfold B64.sorts, B64.merge_argsort.
  set (ps := merge_sort B64.key_le (zip a (seq 0 (length a)))).
  assert (ps ≡ₚ zip a (seq 0 (length a))) as Hps by apply merge_sort_Permutation.
  split.
  - by rewrite Hps, snd_zip by (rewrite length_seq; lia).
  - assert ((a !!!.) <$> ps.*2 = ps.*1) as ->.
    { rewrite <-list_fmap_compose. apply list_fmap_ext. intros k [v i] Hk. simpl.
      apply list_lookup_total_correct, zip_seq_lookup. rewrite <-Hps.
      apply list_elem_of_lookup. eauto. }
    apply Sorted_fmap with (R1 := B64.key_le); [done|].
    apply Sorted_merge_sort, _.
Qed.

Section sorting_b64.
Context (argsort : list PrimFloat.float → list nat).

Lemma sorted_pairs_snd_b64 a : (B64.sorted_pairs argsort a).*2 = argsort a.
Proof.
  unfold B64.sorted_pairs. rewrite <-list_fmap_compose.
  rewrite <-(list_fmap_id (argsort a)) at 2. by apply list_fmap_ext.
Qed.

Lemma sorted_pairs_fst_b64 a : (B64.sorted_pairs argsort a).*1 = (a !!!.) <$> argsort a.
Proof.
  unfold B64.sorted_pairs. rewrite <-list_fmap_compose. by apply list_fmap_ext.
Qed.

Lemma sorted_pairs_Permutation_b64 a :
  argsort a ≡ₚ seq 0 (length a) →
  B64.sorted_pairs argsort a ≡ₚ zip a (seq 0 (length a)).
Proof.
  intros Hp. unfold B64.sorted_pairs. by rewrite Hp, pairs_seq_b64.
Qed.

Lemma sorted_pairs_lookup_b64 a v j :
  argsort a ≡ₚ seq 0 (length a) →
  (v, j) ∈ B64.sorted_pairs argsort a → a !! j = Some v.
Proof.
  intros Hp. rewrite sorted_pairs_Permutation_b64 by done. apply zip_seq_lookup.
Qed.

Lemma length_sorted_pairs_b64 a :
  argsort a ≡ₚ seq 0 (length a) → length (B64.sorted_pairs argsort a) = length a.
Proof.
  intros Hp. unfold B64.sorted_pairs. by rewrite length_fmap, Hp, length_seq.
Qed.

Lemma argsort_lt_b64 a :
  argsort a ≡ₚ seq 0 (length a) → Forall (λ i, (i < length a)%nat) (argsort a).
Proof.
  intros ->. apply Forall_forall. intros i Hi. apply elem_of_seq in Hi. lia.
Qed.

Lemma take_idx_argsort_b64 a :
  argsort a ≡ₚ seq 0 (length a) →
  take_idx a (argsort a) = Ok (B64.sorted_pairs argsort a).*1.
Proof.
  intros Hp. rewrite <-(sorted_pairs_snd_b64 a).
  apply take_idx_pairs. intros v i. by apply sorted_pairs_lookup_b64.
Qed.

(** What follows is about one input [pvals] on which [argsort] keeps its
    promise. *)
Context (pvals : list PrimFloat.float).
Context (Hsort : B64.sorts (B64.valid pvals) (argsort (B64.valid pvals))).

Lemma argsort_Permutation_b64 :
  argsort (B64.valid pvals) ≡ₚ seq 0 (length (B64.valid pvals)).
Proof. by destruct Hsort. Qed.

Lemma length_argsort_b64 :
  length (argsort (B64.valid pvals)) = length (B64.valid pvals).
Proof. by rewrite argsort_Permutation_b64, length_seq. Qed.

Lemma NoDup_argsort_b64 : NoDup (argsort (B64.valid pvals)).
Proof. rewrite argsort_Permutation_b64. apply NoDup_seq. Qed.

Lemma length_sorted_pvals_b64 :
  length (B64.sorted_pvals argsort pvals) = length (B64.valid pvals).
Proof.
  unfold B64.sorted_pvals.
  by rewrite length_fmap, length_sorted_pairs_b64 by apply argsort_Permutation_b64.
Qed.

Lemma sorted_pvals_Permutation_b64 :
  B64.sorted_pvals argsort pvals ≡ₚ B64.valid pvals.
Proof.
  unfold B64.sorted_pvals.
  rewrite sorted_pairs_Permutation_b64 by apply argsort_Permutation_b64.
  by rewrite fst_zip by (rewrite length_seq; lia).
Qed.

Lemma Sorted_sorted_pvals_b64 : Sorted B64.sort_le (B64.sorted_pvals argsort pvals).
Proof.
  unfold B64.sorted_pvals. rewrite sorted_pairs_fst_b64. by destruct Hsort.
Qed.

End sorting_b64.

(** ** Thresholds and the critical value *)

Lemma sig_mask_lookup_b64 sp q k :
  B64.sig_mask sp q !! k = (λ x, B64.fle x (B64.thr (length sp) q k)) <$> sp !! k.
Proof. unfold B64.sig_mask. apply list_lookup_imap. Qed.

Lemma le_arrays_thresholds_b64 sp q :
  B64.le_arrays sp
    ((λ r, B64.fmul r q) <$> B64.div_scalar (seq 1 (length sp)) (length sp))
  = Ok (B64.sig_mask sp q).
Proof.
  unfold B64.le_arrays, B64.div_scalar.
  rewrite decide_True by (by rewrite !length_fmap, length_seq).
  f_equal. apply list_eq. intros k.
  rewrite sig_mask_lookup_b64, lookup_zip_with, !list_lookup_fmap.
  destruct (sp !! k) as [x|] eqn:Hk; [|done]. simpl.
  apply lookup_lt_Some in Hk.
  rewrite lookup_seq_lt by lia. done.
Qed.

Lemma sig_mask_true_b64 sp q k :
  B64.sig_mask sp q !! k = Some true ↔
  ∃ x, sp !! k = Some x ∧ B64.fle x (B64.thr (length sp) q k) = true.
Proof.
  rewrite sig_mask_lookup_b64, fmap_Some. split; intros (x & ? & ?); eauto.
Qed.

Lemma crit_of_None_b64 sp q :
  B64.crit_of sp q = None ↔
  ∀ k x, sp !! k = Some x → B64.fle x (B64.thr (length sp) q k) = false.
Proof.
  unfold B64.crit_of. split.
  - intros Hc k x Hk.
    destruct (last (np_where (B64.sig_mask sp q))) as [j|] eqn:Hl; simpl in Hc.
    + apply last_np_where in Hl as [(y & Hy & _)%sig_mask_true_b64 _]. congruence.
    + pose proof (last_np_where_None _ Hl k) as Hl'.
      apply not_true_is_false. intros Hpass. apply Hl', sig_mask_true_b64. eauto.
  - intros Hall.
    destruct (last (np_where (B64.sig_mask sp q))) as [j|] eqn:Hl; [|done].
    apply last_np_where in Hl as [(y & Hy & Hpass)%sig_mask_true_b64 _].
    rewrite (Hall j y) in Hpass; done.
Qed.

Lemma crit_of_Some_b64 sp q k c :
  sp !! k = Some c → B64.fle c (B64.thr (length sp) q k) = true →
  (∀ k' x, (k < k')%nat → sp !! k' = Some x →
     B64.fle x (B64.thr (length sp) q k') = false) →
  B64.crit_of sp q = Some c.
Proof.
  unfold B64.crit_of. intros Hk Hpass Hmax.
  destruct (last (np_where (B64.sig_mask sp q))) as [j|] eqn:Hl.
  - simpl. apply last_np_where in Hl as [(y & Hy & Hp)%sig_mask_true_b64 Hjmax].
    destruct (Nat.lt_trichotomy j k) as [Hjk|[->|Hjk]].
    + destruct (Hjmax k Hjk). apply sig_mask_true_b64. eauto.
    + congruence.
    + rewrite (Hmax j y) in Hp; done.
  - destruct (last_np_where_None _ Hl k). apply sig_mask_true_b64. eauto.
Qed.

(** The branch of lines 29-35. *)
Lemma crit_branch_b64 sp q :
  (if negb (any (B64.sig_mask sp q)) then
     Ok (0%float, replicate (length sp) false)
   else
     significant_idx ← get_last (np_where (B64.sig_mask sp q));
     crit_p ← get_item sp significant_idx;
     Ok (crit_p, (λ p, B64.fle p crit_p) <$> sp))
  = Ok (match B64.crit_of sp q with
        | Some c => (c, (λ p, B64.fle p c) <$> sp)
        | None => (0%float, replicate (length sp) false)
        end).
Proof.
  unfold B64.crit_of. destruct (any (B64.sig_mask sp q)) eqn:Hany; simpl.
  - destruct (last (np_where (B64.sig_mask sp q))) as [k|] eqn:Hl.
    + rewrite (get_last_Some _ k) by done. cbn.
      apply last_np_where in Hl as [(c & Hc & _)%sig_mask_true_b64 _]. rewrite Hc.
      by rewrite (get_item_Some _ k c) by done.
    + apply last_None, any_false in Hl. congruence.
  - apply any_false in Hany. by rewrite Hany.
Qed.

(** ** The backward pass *)

Section backward_pass_b64.
Context (m : nat).

Lemma length_adj_sorted_b64 k sp : length (B64.adj_sorted m k sp) = length sp.
Proof.
  revert k. induction sp as [|x sp IH]; intros k; simpl; [done|].
  specialize (IH (S k)). destruct (B64.adj_sorted m (S k) sp); simpl in *; by rewrite <-IH.
Qed.

Lemma adj_sorted_cons_b64 k x a r rest :
  B64.adj_sorted m (S k) rest = a :: r →
  B64.adj_sorted m k (x :: rest)
  = B64.py_min 1%float
      (B64.py_min (B64.fmul (B64.fdiv (B64.of_int m) (B64.of_int (S k))) x) a)
      :: a :: r.
Proof. simpl. by intros ->. Qed.

Lemma adj_sorted_tail_b64 k x rest i :
  B64.adj_sorted m k (x :: rest) !! S i = B64.adj_sorted m (S k) rest !! i.
Proof. simpl. by destruct (B64.adj_sorted m (S k) rest). Qed.

Lemma adj_sorted_nil_b64 k sp : B64.adj_sorted m k sp = [] → sp = [].
Proof.
  destruct sp as [|x rest]; [done|]. simpl.
  by destruct (B64.adj_sorted m (S k) rest).
Qed.

Lemma adj_sorted_last_b64 k sp : last (B64.adj_sorted m k sp) = last sp.
Proof.
  revert k. induction sp as [|x rest IH]; intros k; simpl; [done|].
  specialize (IH (S k)). destruct (B64.adj_sorted m (S k) rest) as [|a r] eqn:Hrest.
  - by apply adj_sorted_nil_b64 in Hrest as ->.
  - destruct rest as [|y rest']; [done|].
    by rewrite (last_cons_cons _ a r), (last_cons_cons x y rest').
Qed.

Lemma adj_sorted_lookup_b64 k0 sp k x a :
  sp !! k = Some x → B64.adj_sorted m k0 sp !! S k = Some a →
  B64.adj_sorted m k0 sp !! k
  = Some (B64.py_min 1%float
            (B64.py_min
               (B64.fmul (B64.fdiv (B64.of_int m) (B64.of_int (S (k0 + k)))) x) a)).
Proof.
  revert k0 k. induction sp as [|y rest IH]; intros k0 k Hk Ha; [done|].
  destruct k as [|k].
  - injection Hk as ->. rewrite adj_sorted_tail_b64 in Ha.
    destruct (B64.adj_sorted m (S k0) rest) as [|a' r] eqn:Hrest; [done|].
    injection Ha as ->. rewrite (adj_sorted_cons_b64 k0 x a r) by done.
    by rewrite Nat.add_0_r.
  - simpl in Hk. rewrite adj_sorted_tail_b64 in Ha |- *.
    rewrite (IH (S k0) k) by done.
    by replace (S k0 + k)%nat with (k0 + S k)%nat by lia.
Qed.

Lemma adj_step_ok_b64 sp (adj : list PrimFloat.float) i x next :
  sp !! i = Some x → adj !! (i + 1)%nat = Some next →
  (i < length adj)%nat →
  B64.adj_step m sp adj i
  = Ok (<[i:=B64.py_min 1%float
              (B64.py_min (B64.fmul (B64.fdiv (B64.of_int m) (B64.of_int (S i))) x)
                 next)]> adj).
Proof.
  intros Hx Hnext Hi. unfold B64.adj_step, B64.int_div.
  rewrite Nat.add_1_r, bind_Ok.
  rewrite (get_item_Some _ i x), bind_Ok by done.
  rewrite <-Nat.add_1_r, (get_item_Some _ (i + 1) next), bind_Ok by done.
  rewrite set_item_lt by done. by rewrite Nat.add_1_r.
Qed.

Lemma adj_loop_b64 sp n pre :
  length sp = m → (n < m)%nat → length pre = n →
  foldM (B64.adj_step m sp) (pre ++ B64.adj_sorted m n (drop n sp))
    (reverse (seq 0 n))
  = Ok (B64.adj_sorted m 0 sp).
Proof.
  intros Hm. revert pre. induction n as [|n IH]; intros pre Hn Hpre.
  - destruct pre; [|done]. done.
  - rewrite seq_S, reverse_snoc. cbn [foldM plus].
    destruct (lookup_lt_is_Some_2 sp n) as [x Hx]; [lia|].
    destruct (B64.adj_sorted m (S n) (drop (S n) sp)) as [|a r] eqn:Hadj.
    { apply (f_equal length) in Hadj.
      rewrite length_adj_sorted_b64, length_drop in Hadj. simpl in Hadj. lia. }
    rewrite (adj_step_ok_b64 sp _ n x a); [|done|..|rewrite length_app; lia].
    2:{ rewrite lookup_app_r by lia.
        replace (n + 1 - length pre)%nat with 0%nat by lia. done. }
    rewrite bind_Ok.
    rewrite insert_app_l by lia.
    rewrite insert_take_drop by lia.
    rewrite (drop_ge pre) by lia.
    rewrite <-(assoc_L (++)). cbn [app].
    rewrite <-(IH (take n pre)); [|lia|rewrite length_take; lia].
    do 3 f_equal.
    rewrite (drop_S sp x n) by done.
    by rewrite (adj_sorted_cons_b64 n x a r) by done.
Qed.

End backward_pass_b64.

(** Lines 38-42, handed to the rest [rest] of the routine. *)
Lemma adj_pass_b64 {B} sp x (rest : list PrimFloat.float → result B) :
  last sp = Some x →
  (last_p ← get_last sp;
   adj_p_sorted ← set_last (replicate (length sp) B64.nan) last_p;
   adj_p_sorted ←
     foldM (B64.adj_step (length sp) sp) adj_p_sorted (range_down (length sp));
   rest adj_p_sorted)
  = rest (B64.adj_sorted (length sp) 0 sp).
Proof.
  intros Hlast.
  rewrite (get_last_Some _ x) by done.
  rewrite bind_Ok. destruct (length sp) as [|n] eqn:Hlen.
  { destruct sp; done. }
  rewrite set_last_replicate, bind_Ok. unfold range_down.
  replace (S n - 1)%nat with n by lia.
  assert (replicate n B64.nan ++ [x]
          = replicate n B64.nan ++ B64.adj_sorted (S n) n (drop n sp)) as ->.
  { rewrite last_lookup, Hlen in Hlast. simpl in Hlast.
    rewrite (drop_S sp x n) by done. by rewrite drop_ge by lia. }
  rewrite (adj_loop_b64 (S n) sp n (replicate n B64.nan));
    [done|done|lia|by rewrite length_replicate].
Qed.

(** ** The routine, step by step *)

Section run_b64.
Context (argsort : list PrimFloat.float → list nat).
Context (pvals : list PrimFloat.float).
Context (Hsort : B64.sorts (B64.valid pvals) (argsort (B64.valid pvals))).

Lemma fdr_bh_run_b64 q :
  B64.valid pvals ≠ [] →
  B64.fdr_bh argsort pvals q
  = Ok (B64.bh_flags argsort pvals q, B64.bh_crit argsort pvals q,
        B64.bh_adj argsort pvals).
Proof.
  intros Hv. unfold B64.fdr_bh.
  pose proof (argsort_Permutation_b64 argsort pvals Hsort) as Hperm.
  pose proof (length_sorted_pvals_b64 argsort pvals Hsort) as Hsp.
  pose proof (length_argsort_b64 argsort pvals Hsort) as Hidx.
  rewrite decide_False by (by destruct pvals).
  lazy zeta. rewrite mask_select_b64, bind_Ok.
  set (vs := B64.valid pvals) in *.
  assert (length vs ≠ 0%nat) as Hlen by (by destruct vs).
  rewrite decide_False by done.
  rewrite take_idx_argsort_b64, bind_Ok by done.
  fold (B64.sorted_pvals argsort pvals).
  set (sp := B64.sorted_pvals argsort pvals) in *.
  rewrite <-!Hsp.
  rewrite le_arrays_thresholds_b64, bind_Ok.
  rewrite crit_branch_b64, bind_Ok.
  destruct (last sp) as [x|] eqn:Hlast.
  2:{ apply last_None in Hlast. rewrite Hlast in Hsp. simpl in Hsp. lia. }
  assert (∀ {B} (f : PrimFloat.float → B) d,
    put_idx (replicate (length sp) d) (argsort vs) (f <$> sp)
    = Ok (f <$> vs)) as Hput.
  { intros B f d. rewrite put_idx_ok.
    - f_equal. rewrite <-(sorted_pairs_snd_b64 argsort vs).
      apply scatter_pairs; [by apply sorted_pairs_Permutation_b64|].
      by rewrite length_replicate.
    - by rewrite Hidx, length_fmap.
    - rewrite length_replicate, Hsp. by apply argsort_lt_b64. }
  assert (put_idx (replicate (length sp) B64.nan) (argsort vs)
            (B64.adj_sorted (length sp) 0 sp)
          = Ok (scatter (replicate (length sp) B64.nan) (argsort vs)
                  (B64.adj_sorted (length sp) 0 sp))) as Hadj.
  { rewrite put_idx_ok; [done|..].
    - by rewrite Hidx, length_adj_sorted_b64.
    - rewrite length_replicate, Hsp. by apply argsort_lt_b64. }
  unfold B64.bh_flags, B64.bh_crit, B64.bh_adj. fold vs. fold sp.
  rewrite <-Hsp.
  destruct (B64.crit_of sp q) as [c|] eqn:Hc.
  - rewrite (adj_pass_b64 sp x _ Hlast).
    rewrite Hput, bind_Ok, Hadj, bind_Ok.
    rewrite <-(length_fmap B64.isnan pvals), <-(length_fmap negb (B64.isnan <$> pvals)).
    rewrite !mask_put_fill, !bind_Ok;
      [|by rewrite count_true_valid_b64, ?length_scatter, ?length_replicate, ?length_fmap..].
    by rewrite mask_fill_fmap_b64.
  - rewrite (adj_pass_b64 sp x _ Hlast).
    replace (replicate (length sp) false)
      with ((λ _, false) <$> sp) at 2
      by (by rewrite (const_fmap _ _ false), ?length_fmap by done).
    rewrite Hput, bind_Ok, Hadj, bind_Ok.
    rewrite <-(length_fmap B64.isnan pvals), <-(length_fmap negb (B64.isnan <$> pvals)).
    rewrite !mask_put_fill, !bind_Ok;
      [|by rewrite count_true_valid_b64, ?length_scatter, ?length_replicate, ?length_fmap..].
    rewrite (const_fmap (λ _ : PrimFloat.float, false) vs false) by done.
    by rewrite mask_fill_replicate, !length_fmap.
Qed.

(** ** The ranking *)

Lemma ranked_fst_b64 : (B64.ranked argsort pvals).*1 = B64.sorted_pvals argsort pvals.
Proof.
  unfold B64.ranked, B64.sorted_pvals. rewrite <-list_fmap_compose.
  by apply list_fmap_ext.
Qed.

Lemma length_ranked_b64 :
  length (B64.ranked argsort pvals) = length (B64.valid pvals).
Proof.
  unfold B64.ranked.
  by rewrite length_fmap, length_sorted_pairs_b64
    by (by apply argsort_Permutation_b64).
Qed.

(** The [k]-th entry of the ranking: a value of [sorted_pvals], the valid
    entry of that rank, and its position in the input. *)
Lemma ranked_lookup_b64 k x i :
  B64.ranked argsort pvals !! k = Some (x, i) →
  ∃ j, B64.sorted_pairs argsort (B64.valid pvals) !! k = Some (x, j) ∧
       B64.valid pvals !! j = Some x ∧
       np_where (negb <$> (B64.isnan <$> pvals)) !! j = Some i ∧
       pvals !! i = Some x.
Proof.
  unfold B64.ranked. rewrite list_lookup_fmap.
  destruct (B64.sorted_pairs argsort (B64.valid pvals) !! k) as [[v j]|] eqn:Hk;
    [|done].
  simpl. intros [= -> <-]. exists j.
  assert (B64.valid pvals !! j = Some x) as Hj.
  { apply sorted_pairs_lookup_b64 with (argsort := argsort);
      [by apply argsort_Permutation_b64|].
    apply list_elem_of_lookup. eauto. }
  pose proof Hj as Hj'. rewrite valid_lookup_b64 in Hj'.
  destruct (np_where (negb <$> (B64.isnan <$> pvals)) !! j) as [i|] eqn:Hi; [|done].
  simpl in Hj'. rewrite (list_lookup_total_correct _ _ _ Hi). done.
Qed.

Lemma ranked_sorted_pvals_b64 k x i :
  B64.ranked argsort pvals !! k = Some (x, i) →
  B64.sorted_pvals argsort pvals !! k = Some x.
Proof. intros Hk. by rewrite <-ranked_fst_b64, list_lookup_fmap, Hk. Qed.

(** The adjusted value returned at the position of rank [k + 1] is the
    [k]-th value of the backward pass. *)
Lemma bh_adj_ranked_b64 k x i :
  B64.ranked argsort pvals !! k = Some (x, i) →
  B64.bh_adj argsort pvals !! i
  = B64.adj_sorted (length (B64.valid pvals)) 0 (B64.sorted_pvals argsort pvals) !! k.
Proof.
  intros (j & Hk & Hj & Hi & Hx)%ranked_lookup_b64. unfold B64.bh_adj.
  pose proof (lookup_lt_Some _ _ _ Hj) as Hlt.
  rewrite (mask_fill_where _ _ _ j i Hi)
    by (by rewrite length_scatter, length_replicate).
  apply scatter_lookup.
  - by apply NoDup_argsort_b64.
  - by rewrite length_argsort_b64, length_adj_sorted_b64, length_sorted_pvals_b64.
  - by rewrite <-sorted_pairs_snd_b64, list_lookup_fmap, Hk.
  - by rewrite length_replicate.
Qed.

(** Every valid entry has a rank. *)
Lemma ranked_complete_b64 i x :
  pvals !! i = Some x → B64.isnan x = false →
  ∃ k, B64.ranked argsort pvals !! k = Some (x, i).
Proof.
  intros Hi Hx.
  assert (∃ j, np_where (negb <$> (B64.isnan <$> pvals)) !! j = Some i) as [j Hj].
  { apply list_elem_of_lookup. unfold np_where. apply elem_of_where_from.
    exists i. split; [done|]. by rewrite !list_lookup_fmap, Hi; simpl; rewrite Hx. }
  assert (B64.valid pvals !! j = Some x) as Hv
    by (by rewrite valid_lookup_b64, Hj).
  assert ((x, j) ∈ B64.sorted_pairs argsort (B64.valid pvals)) as Hin.
  { rewrite sorted_pairs_Permutation_b64 by (by apply argsort_Permutation_b64).
    apply list_elem_of_lookup. exists j.
    apply lookup_zip_with_Some. exists x, j. split_and!; [done..|].
    apply lookup_seq. split; [done|]. by eapply lookup_lt_Some. }
  apply list_elem_of_lookup in Hin as [k Hk]. exists k.
  unfold B64.ranked. rewrite list_lookup_fmap, Hk. simpl.
  by rewrite (list_lookup_total_correct _ _ _ Hj).
Qed.

(** The positions of the ranking are pairwise distinct. *)
Lemma NoDup_ranked_b64 : NoDup (B64.ranked argsort pvals).*2.
Proof.
  apply NoDup_alt. intros k1 k2 i. rewrite !list_lookup_fmap.
  destruct (B64.ranked argsort pvals !! k1) as [[x1 i1]|] eqn:H1; [|done].
  destruct (B64.ranked argsort pvals !! k2) as [[x2 i2]|] eqn:H2; [|done].
  simpl. intros [= ->] [= ->].
  apply ranked_lookup_b64 in H1 as (j1 & Hk1 & _ & Hi1 & _).
  apply ranked_lookup_b64 in H2 as (j2 & Hk2 & _ & Hi2 & _).
  pose proof (NoDup_np_where (negb <$> (B64.isnan <$> pvals))) as Hnd.
  assert (j1 = j2) as -> by (by eapply NoDup_lookup).
  eapply (NoDup_lookup (argsort (B64.valid pvals))).
  - by apply NoDup_argsort_b64.
  - by rewrite <-sorted_pairs_snd_b64, list_lookup_fmap, Hk1.
  - by rewrite <-sorted_pairs_snd_b64, list_lookup_fmap, Hk2.
Qed.

End run_b64.

(** The adjusted values of the backward pass are at most 1, the last one
    when the last p-value is. *)
Lemma adj_sorted_le_1_b64 m k sp :
  Forall (λ x, B64.fle x 1%float = true) sp →
  Forall (λ a, B64.fle a 1%float = true) (B64.adj_sorted m k sp).
Proof.
  revert k. induction sp as [|x rest IH]; intros k Hsp; [done|].
  apply Forall_cons in Hsp as [Hx Hrest]. specialize (IH (S k) Hrest).
  simpl. destruct (B64.adj_sorted m (S k) rest) as [|a r]; [by constructor|].
  constructor; [|done]. by apply py_min_le_l_b64.
Qed.

(** ** The empty input and the input without a valid entry *)

Lemma fdr_bh_nil_b64 argsort q : B64.fdr_bh argsort [] q = Ok ([], 0%float, []).
Proof. done. Qed.

Lemma fdr_bh_all_nan_b64 argsort pvals q :
  pvals ≠ [] → B64.valid pvals = [] →
  B64.fdr_bh argsort pvals q
  = Ok (replicate (length pvals) false, B64.nan, replicate (length pvals) B64.nan).
Proof.
  intros Hne Hv. unfold B64.fdr_bh.
  rewrite decide_False by (by destruct pvals).
  cbv zeta. rewrite mask_select_b64, bind_Ok, Hv. done.
Qed.

(** ** The decision read off the adjusted value *)

Lemma lex_le_dec_b64 k1 k2 : lex_le k1 k2 ∨ ¬ lex_le k1 k2.
Proof. destruct k1 as [[??]?], k2 as [[??]?]. simpl. lia. Qed.

Lemma flt_false_fle_b64 a b :
  B64.isnan a = false → B64.isnan b = false → B64.flt b a = false →
  B64.fle a b = true.
Proof.
  intros Ha Hb Hlt. apply fle_key_b64. split_and!; [done..|].
  destruct (lex_le_dec_b64 (sf_key (Prim2SF a)) (sf_key (Prim2SF b))) as [|Hn];
    [done|].
  assert (B64.flt b a = true) by (by apply flt_key_b64). congruence.
Qed.

Lemma py_min_isnan_b64 a b :
  B64.isnan a = false → B64.isnan b = false → B64.isnan (B64.py_min a b) = false.
Proof. intros. unfold B64.py_min. by destruct (B64.flt b a). Qed.

(** [min(a, b) <= c] for numbers [a] and [b]: one of the two is at most
    [c]. *)
Lemma py_min_fle_b64 a b c :
  B64.isnan a = false → B64.isnan b = false →
  B64.fle (B64.py_min a b) c = true ↔ B64.fle a c = true ∨ B64.fle b c = true.
Proof.
  intros Ha Hb. unfold B64.py_min. destruct (B64.flt b a) eqn:Hlt.
  - split; [auto|]. intros [Hac|]; [|done].
    eapply fle_trans_b64; [by apply flt_fle_b64|done].
  - split; [auto|]. intros [|Hbc]; [done|].
    eapply fle_trans_b64; [by apply flt_false_fle_b64|done].
Qed.

(** An adjusted value of the backward pass is at most [q] exactly when the
    scaled value of its rank or of a later one is. *)
Lemma adj_sorted_fle_b64 m q k0 sp :
  (k0 + length sp = m)%nat →
  Forall (λ x, B64.fle x 1%float = true) sp →
  (∀ k x, sp !! k = Some x → B64.isnan (B64.scaled m (k0 + k) x) = false) →
  ∀ k a, B64.adj_sorted m k0 sp !! k = Some a →
    B64.isnan a = false ∧
    (B64.fle a q = true ↔
     ∃ k' x, (k ≤ k')%nat ∧ sp !! k' = Some x ∧
             B64.fle (B64.scaled m (k0 + k') x) q = true).
Proof.
  revert k0. induction sp as [|x rest IH]; intros k0 Hm H1 Hnan k a Ha; [done|].
  apply Forall_cons in H1 as [Hx1 Hrest1].
  destruct (B64.adj_sorted m (S k0) rest) as [|a' r] eqn:Hrest.
  - apply adj_sorted_nil_b64 in Hrest as ->. simpl in Ha, Hm.
    destruct k; [|done]. injection Ha as <-.
    assert (B64.scaled m (k0 + 0) x = x) as Hsc.
    { unfold B64.scaled. by rewrite decide_True by lia. }
    split; [by apply fle_isnan_b64 in Hx1 as [? _]|]. split.
    + intros Hq. exists 0%nat, x. by rewrite Hsc.
    + intros (k' & y & _ & Hy & Hq). destruct k'; [|done].
      injection Hy as <-. by rewrite Hsc in Hq.
  - assert (rest ≠ []) as Hne by (intros ->; done).
    assert (∀ k a, B64.adj_sorted m (S k0) rest !! k = Some a →
      B64.isnan a = false ∧
      (B64.fle a q = true ↔
       ∃ k' x, (k ≤ k')%nat ∧ rest !! k' = Some x ∧
               B64.fle (B64.scaled m (S k0 + k') x) q = true)) as IH'.
    { apply IH; [simpl in Hm; lia|done|]. intros k1 y Hy.
      replace (S k0 + k1)%nat with (k0 + S k1)%nat by lia. by apply Hnan. }
    destruct k as [|k].
    + rewrite (adj_sorted_cons_b64 m k0 x a' r rest Hrest) in Ha. injection Ha as <-.
      assert (B64.scaled m (k0 + 0) x
              = B64.fmul (B64.fdiv (B64.of_int m) (B64.of_int (S k0))) x) as Hsc.
      { unfold B64.scaled. rewrite Nat.add_0_r, decide_False; [done|].
        destruct rest; [done|]. simpl in Hm. lia. }
      pose proof (Hnan 0%nat x eq_refl) as Hs. rewrite Hsc in Hs.
      destruct (IH' 0%nat a') as [Ha'nan Ha']; [by rewrite Hrest|].
      assert (B64.fle a' 1%float = true) as Ha'1.
      { pose proof (adj_sorted_le_1_b64 m (S k0) rest Hrest1) as HF.
        rewrite Hrest in HF. by apply Forall_cons in HF as [? _]. }
      split; [by apply py_min_isnan_b64; [|apply py_min_isnan_b64]|].
      rewrite !py_min_fle_b64 by (done || by apply py_min_isnan_b64).
      rewrite Ha'. split.
      * intros [H1q|[Hsq|(k' & y & _ & Hy & Hq)]].
        -- assert (B64.fle a' q = true) as Hq' by (by eapply fle_trans_b64).
           apply Ha' in Hq' as (k' & y & _ & Hy & Hq).
           exists (S k'), y. split_and!; [lia|done|].
           by replace (k0 + S k')%nat with (S k0 + k')%nat by lia.
        -- exists 0%nat, x. by rewrite Hsc.
        -- exists (S k'), y. split_and!; [lia|done|].
           by replace (k0 + S k')%nat with (S k0 + k')%nat by lia.
      * intros (k' & y & _ & Hy & Hq). destruct k' as [|k'].
        -- injection Hy as <-. rewrite Hsc in Hq. auto.
        -- right; right. exists k', y. split_and!; [lia|done|].
           by replace (S k0 + k')%nat with (k0 + S k')%nat by lia.
    + rewrite adj_sorted_tail_b64 in Ha. destruct (IH' k a Ha) as [? Hiff].
      split; [done|]. rewrite Hiff. split.
      * intros (k' & y & Hle & Hy & Hq). exists (S k'), y. split_and!; [lia|done|].
        by replace (k0 + S k')%nat with (S k0 + k')%nat by lia.
      * intros (k' & y & Hle & Hy & Hq). destruct k' as [|k']; [lia|].
        exists k', y. split_and!; [lia|done|].
        by replace (S k0 + k')%nat with (k0 + S k')%nat by lia.
Qed.

Lemma Sorted_lookup_b64 (l : list PrimFloat.float) i j x y :
  Sorted B64.sort_le l → (i < j)%nat → l !! i = Some x → l !! j = Some y →
  B64.sort_le x y.
Proof.
  intros Hl%(Sorted_StronglySorted B64.sort_le). revert i j.
  induction Hl as [|z l Hl IH Hz]; intros i j Hij Hi Hj; [done|].
  destruct i as [|i], j as [|j]; simplify_eq/=; [lia|..|lia|].
  - eapply Forall_lookup_1 in Hz; done.
  - eapply IH; [|done..]. lia.
Qed.

(** The rank that gives the critical value: it passes, and no later one
    does. *)
Lemma crit_of_Some_inv_b64 sp q c :
  B64.crit_of sp q = Some c →
  ∃ k, sp !! k = Some c ∧ B64.fle c (B64.thr (length sp) q k) = true ∧
       ∀ k' x, (k < k')%nat → sp !! k' = Some x →
         B64.fle x (B64.thr (length sp) q k') = false.
Proof.
  unfold B64.crit_of. intros Hc.
  destruct (last (np_where (B64.sig_mask sp q))) as [k|] eqn:Hl; [|done].
  simpl in Hc. exists k.
  apply last_np_where in Hl as [(y & Hy & Hp)%sig_mask_true_b64 Hmax].
  assert (y = c) as -> by congruence. split_and!; [done..|].
  intros k' x Hk Hx. apply not_true_is_false. intros Hpass.
  apply (Hmax k' Hk), sig_mask_true_b64. eauto.
Qed.

(** The flag of the value of rank [k + 1]: some rank from [k + 1] on
    passes. *)
Lemma flag_passes_b64 sp q k x :
  Sorted B64.sort_le sp → B64.thr_ascend (length sp) q → sp !! k = Some x →
  match B64.crit_of sp q with
  | Some c => B64.fle x c = true
  | None => False
  end ↔
  ∃ k' y, (k ≤ k')%nat ∧ sp !! k' = Some y ∧
          B64.fle y (B64.thr (length sp) q k') = true.
Proof.
  intros Hs Hasc Hk. destruct (B64.crit_of sp q) as [c|] eqn:Hc.
  - apply crit_of_Some_inv_b64 in Hc as (ks & Hks & Hpass & Hmax). split.
    + intros Hxc. destruct (decide (k ≤ ks)%nat) as [Hle|Hgt]; [by eauto|].
      exists k, x. split_and!; [done..|].
      eapply fle_trans_b64; [done|]. eapply fle_trans_b64; [done|].
      apply Hasc; [lia|by eapply lookup_lt_Some].
    + intros (k' & y & Hle & Hy & Hp).
      assert (k' ≤ ks)%nat as Hk'.
      { apply Nat.nlt_ge. intros Hlt. by rewrite (Hmax k' y Hlt Hy) in Hp. }
      destruct (decide (k = ks)) as [->|Hne].
      * assert (x = c) as -> by congruence.
        apply fle_refl_b64. by apply fle_isnan_b64 in Hpass as [? _].
      * assert (B64.sort_le x c) as Hxc
          by (eapply (Sorted_lookup_b64 sp k ks); [done|lia|done..]).
        unfold B64.sort_le in Hxc. apply fle_isnan_b64 in Hpass as [Hcn _].
        rewrite Hcn in Hxc. by apply Is_true_true in Hxc.
  - split; [done|]. intros (k' & y & _ & Hy & Hp).
    by rewrite (proj1 (crit_of_None_b64 sp q) Hc k' y Hy) in Hp.
Qed.

Lemma in_unit_sorted_pvals_b64 argsort pvals :
  B64.sorts (B64.valid pvals) (argsort (B64.valid pvals)) → B64.in_unit pvals →
  Forall (λ x, B64.fle x 1%float = true) (B64.sorted_pvals argsort pvals).
Proof.
  intros Hs Hu. rewrite sorted_pvals_Permutation_b64 by done.
  eapply Forall_impl; [exact Hu|]. by intros x [_ ?].
Qed.

(** ** The properties of [fdr_bh] *)

(** C1, as stated, fails: on the ten p-values of test 1 with q = 0.05 the
    routine does not flag four entries and its critical p-value is not
    0.041 (ranks 3 and 4 have p = 0.039 and 0.041, above their thresholds
    0.015 and 0.020). *)
Lemma C1_classic_example_refuted :
  ∃ h crit adj,
    fdr_bh p_vals_1 (py_float 0.05) = Ok (h, crit, adj) ∧
    count_true h ≠ 4%nat ∧ crit ≠ py_float 0.041.
Proof.
  eexists _, _, _. split; [vm_compute; reflexivity|]. split; [done|].
  intros H. vm_compute in H. congruence.
Qed.

(** C1, amended: on the ten p-values of test 1 with q = 0.05, [fdr_bh] flags
    exactly two entries, those of ranks 1 and 2, and returns the critical
    p-value 0.008. *)
Theorem C1_classic_example :
  ∃ adj,
    fdr_bh p_vals_1 (py_float 0.05)
    = Ok ([true; true; false; false; false; false; false; false; false; false],
          py_float 0.008, adj).
Proof. eexists. vm_compute. reflexivity. Qed.

(** C2: let [argsort] keep the promise of [np.argsort] on the valid entries
    ([m] of them, at least one), and let [r] be the ranking of the routine:
    the valid entries in the ascending order of [sorted_pvals], each with
    its position in the input (every valid entry of the input has a rank,
    and stands in the input where the ranking says).  The adjusted value
    returned at the position of the last rank is the raw p-value of that
    rank.  The one at the position of an earlier rank [k + 1] is
    [min(1.0, min((m / (k + 1)) * x, a))]: the minimum of the scaled raw
    p-value [x] of that rank and the adjusted value [a] returned for the next
    rank, clamped at 1.0, with the quotient and the product of binary64 as
    line 42 computes them.  On p-values in [0, 1] every adjusted value of a
    valid entry is at most 1. *)
Theorem C2_step_down_recurrence argsort pvals q :
  B64.sorts (B64.valid pvals) (argsort (B64.valid pvals)) →
  B64.valid pvals ≠ [] →
  ∃ h crit adj,
    B64.fdr_bh argsort pvals q = Ok (h, crit, adj) ∧
    let r := B64.ranked argsort pvals in
    let m := length r in
    (∀ i x, pvals !! i = Some x → B64.isnan x = false →
            ∃ k, r !! k = Some (x, i)) ∧
    (∀ k x i, r !! k = Some (x, i) → pvals !! i = Some x) ∧
    (∀ x i, last r = Some (x, i) → adj !! i = Some x) ∧
    (∀ k x i y j a,
       r !! k = Some (x, i) → r !! S k = Some (y, j) → adj !! j = Some a →
       adj !! i
       = Some (B64.py_min 1%float
                 (B64.py_min
                    (B64.fmul (B64.fdiv (B64.of_int m) (B64.of_int (S k))) x) a))) ∧
    (B64.in_unit pvals →
     ∀ k x i a, r !! k = Some (x, i) → adj !! i = Some a →
       B64.fle a 1%float = true).
Proof.
  intros Hs Hv.
  pose proof (length_sorted_pvals_b64 argsort pvals Hs) as Hlen.
  exists (B64.bh_flags argsort pvals q), (B64.bh_crit argsort pvals q),
    (B64.bh_adj argsort pvals).
  split; [by apply fdr_bh_run_b64|]. cbv zeta.
  rewrite (length_ranked_b64 argsort pvals Hs). split_and!.
  - intros i x Hi Hx. by apply ranked_complete_b64.
  - intros k x i Hk.
    by apply (ranked_lookup_b64 argsort pvals Hs) in Hk as (j & _ & _ & _ & ?).
  - intros x i Hl. pose proof Hl as Hk. rewrite last_lookup in Hk.
    rewrite (bh_adj_ranked_b64 argsort pvals Hs _ _ _ Hk).
    rewrite (length_ranked_b64 argsort pvals Hs).
    assert (last (B64.adj_sorted (length (B64.valid pvals)) 0
                    (B64.sorted_pvals argsort pvals)) = Some x) as Ha
      by (by rewrite adj_sorted_last_b64, <-ranked_fst_b64, fmap_last, Hl).
    by rewrite last_lookup, length_adj_sorted_b64, Hlen in Ha.
  - intros k x i y j a Hk HSk Ha.
    rewrite (bh_adj_ranked_b64 argsort pvals Hs _ _ _ Hk).
    rewrite (bh_adj_ranked_b64 argsort pvals Hs _ _ _ HSk) in Ha.
    rewrite (adj_sorted_lookup_b64 _ 0 _ k x a);
      [done|by eapply ranked_sorted_pvals_b64|done].
  - intros Hu k x i a Hk Ha.
    rewrite (bh_adj_ranked_b64 argsort pvals Hs _ _ _ Hk) in Ha.
    assert (Forall (λ x, B64.fle x 1%float = true)
              (B64.sorted_pvals argsort pvals)) as Hsp.
    { rewrite (sorted_pvals_Permutation_b64 argsort pvals Hs).
      eapply Forall_impl; [exact Hu|]. by intros ? [_ ?]. }
    by eapply (Forall_lookup_1 _ _ _ _ (adj_sorted_le_1_b64 _ 0 _ Hsp)).
Qed.

(** C3: let [argsort] keep the promise of [np.argsort] on the valid
    entries.  When an index [k] (rank [k + 1]) of [sorted_pvals] passes its
    threshold, the product [(rank / m) * q] as line 26 computes it in
    binary64, and no later index does, [fdr_bh] returns the critical p-value
    [sorted_pvals[k]], and the flag of a valid entry is the comparison
    [<=] of its raw p-value with that critical value, whatever its rank; a
    missing entry is not flagged. *)
Theorem C3_critical_value argsort pvals q k c :
  B64.sorts (B64.valid pvals) (argsort (B64.valid pvals)) →
  B64.sorted_pvals argsort pvals !! k = Some c →
  B64.fle c (B64.thr (length (B64.sorted_pvals argsort pvals)) q k) = true →
  (∀ k' x, (k < k')%nat → B64.sorted_pvals argsort pvals !! k' = Some x →
     B64.fle x (B64.thr (length (B64.sorted_pvals argsort pvals)) q k') = false) →
  ∃ h adj,
    B64.fdr_bh argsort pvals q = Ok (h, c, adj) ∧
    ∀ i x, pvals !! i = Some x →
      h !! i = Some (if B64.isnan x then false else B64.fle x c).
Proof.
  intros Hs Hk Hpass Hmax.
  assert (B64.crit_of (B64.sorted_pvals argsort pvals) q = Some c) as Hc
    by (by eapply crit_of_Some_b64).
  exists (B64.bh_flags argsort pvals q), (B64.bh_adj argsort pvals). split.
  - rewrite fdr_bh_run_b64; [|done|].
    + unfold B64.bh_crit. by rewrite Hc.
    + intros Hnil. apply lookup_lt_Some in Hk.
      rewrite (length_sorted_pvals_b64 argsort pvals Hs), Hnil in Hk.
      simpl in Hk. lia.
  - intros i x Hi. unfold B64.bh_flags. by rewrite Hc, list_lookup_fmap, Hi.
Qed.

(** C4: let [argsort] keep the promise of [np.argsort] on the valid
    entries.  When no index of [sorted_pvals] passes its threshold, the
    product [(rank / m) * q] as line 26 computes it in binary64 (and there is
    a valid entry), [fdr_bh] returns the critical p-value 0 and no flag is
    set; so it is for the eleven p-values of test 2 with q = 0.05 (already
    in ascending order, without ties). *)
Theorem C4_no_rank_passes :
  (∀ argsort pvals q,
     B64.sorts (B64.valid pvals) (argsort (B64.valid pvals)) →
     B64.valid pvals ≠ [] →
     (∀ k x, B64.sorted_pvals argsort pvals !! k = Some x →
        B64.fle x (B64.thr (length (B64.sorted_pvals argsort pvals)) q k)
        = false) →
     ∃ adj,
       B64.fdr_bh argsort pvals q
       = Ok (replicate (length pvals) false, 0%float, adj)) ∧
  (∃ adj,
     B64.fdr_bh B64.merge_argsort B64.p_vals_2 0.05%float
     = Ok (replicate 11 false, 0%float, adj)).
Proof.
  split; [|eexists; vm_compute; reflexivity].
  intros argsort pvals q Hs Hne Hall.
  assert (B64.crit_of (B64.sorted_pvals argsort pvals) q = None) as Hc
    by (by apply crit_of_None_b64).
  exists (B64.bh_adj argsort pvals). rewrite fdr_bh_run_b64 by done.
  unfold B64.bh_flags, B64.bh_crit. by rewrite Hc.
Qed.


(** C6, as stated, fails in binary64, in both directions (the runs are
    made with the merge sort for [np.argsort]; the tied entries are equal
    numbers, so that any other sort gives the same arrays).  On [0.01, 0.9,
    0.9] with q = 0.03 the adjusted value of the first entry, (3 / 1) * 0.01
    = 0.03, is at most q, but the entry is not flagged: its threshold
    (1 / 3) * 0.03 is rounded below 0.01.  On [0.001, 0.010000000000000002,
    0.5, ..., 0.5] (ten entries) with q = 0.05 the second entry is flagged,
    its threshold (2 / 10) * 0.05 being rounded up to
    0.010000000000000002, but its adjusted value, 0.05000000000000001, is
    above q. *)
Lemma C6_adjusted_decides_refuted :
  (B64.in_unit [0.01; 0.9; 0.9]%float ∧
   ∃ h crit adj a,
     B64.fdr_bh B64.merge_argsort [0.01; 0.9; 0.9]%float 0.03%float = Ok (h, crit, adj) ∧
     adj !! 0%nat = Some a ∧ B64.fle a 0.03%float = true ∧
     h !! 0%nat = Some false) ∧
  (let pvals :=
     [0.001; 0.010000000000000002; 0.5; 0.5; 0.5; 0.5; 0.5; 0.5; 0.5; 0.5]%float in
   B64.in_unit pvals ∧
   ∃ h crit adj a,
     B64.fdr_bh B64.merge_argsort pvals 0.05%float = Ok (h, crit, adj) ∧
     adj !! 1%nat = Some a ∧ B64.fle a 0.05%float = false ∧
     h !! 1%nat = Some true).
Proof.
  split.
  - split; [compute_done|]. eexists _, _, _, _.
    split; [vm_compute; reflexivity|]. split; [reflexivity|].
    split; reflexivity.
  - split; [compute_done|]. eexists _, _, _, _.
    split; [vm_compute; reflexivity|]. split; [reflexivity|].
    split; reflexivity.
Qed.

(** C6, amended: on p-values in [0, 1] sorted by an [argsort] that keeps
    the promise of [np.argsort], at a level [q] where the thresholds ascend
    with the rank ([B64.thr_ascend]) and where at every rank the threshold
    test [p <= (rank / m) * q] of line 27 gives the answer of the test of the
    scaled value against [q] ([B64.tests_agree]: the scaled value is
    [(m / rank) * p] as line 42 computes it, and [p] itself at the last rank,
    which line 39 copies), the comparison [adjusted <= q] of every entry is
    its significance flag (a missing entry has the adjusted value NaN and no
    flag).  The two conditions are about the rounded products of binary64:
    in the two runs above a p-value meets its threshold to the last bit and
    the two tests differ. *)
Theorem C6_adjusted_decides argsort pvals q :
  B64.sorts (B64.valid pvals) (argsort (B64.valid pvals)) →
  B64.in_unit pvals →
  B64.thr_ascend (length (B64.valid pvals)) q →
  B64.tests_agree (B64.sorted_pvals argsort pvals) q →
  ∃ h crit adj,
    B64.fdr_bh argsort pvals q = Ok (h, crit, adj) ∧
    ∀ i x, pvals !! i = Some x →
      ∃ a, adj !! i = Some a ∧ h !! i = Some (B64.fle a q).
Proof.
  intros Hs Hu Hasc Hag. destruct (decide (pvals = [])) as [->|Hp].
  { eexists _, _, _. split; [apply fdr_bh_nil_b64|done]. }
  assert (B64.fle B64.nan q = false) as Hnanq.
  { apply not_true_is_false. by intros [? _]%fle_isnan_b64. }
  destruct (decide (B64.valid pvals = [])) as [Hnil|Hne].
  { eexists _, _, _. split; [by apply fdr_bh_all_nan_b64|].
    intros i x Hi%lookup_lt_Some. exists B64.nan.
    by rewrite !lookup_replicate_2, Hnanq by done. }
  eexists _, _, _. split; [by apply fdr_bh_run_b64|]. intros i x Hi.
  destruct (B64.isnan x) eqn:Hx.
  { exists B64.nan. rewrite Hnanq. split.
    - unfold B64.bh_adj. apply mask_fill_false.
      by rewrite !list_lookup_fmap, Hi; simpl; rewrite Hx.
    - unfold B64.bh_flags. destruct (B64.crit_of _ _).
      + by rewrite list_lookup_fmap, Hi; simpl; rewrite Hx.
      + apply lookup_lt_Some in Hi. by rewrite lookup_replicate_2. }
  destruct (ranked_complete_b64 argsort pvals Hs i x Hi Hx) as [k Hk].
  pose proof (ranked_sorted_pvals_b64 argsort pvals k x i Hk) as Hspk.
  pose proof (length_sorted_pvals_b64 argsort pvals Hs) as Hlen.
  set (sp := B64.sorted_pvals argsort pvals) in *.
  destruct (lookup_lt_is_Some_2 (B64.adj_sorted (length sp) 0 sp) k) as [a Ha].
  { rewrite length_adj_sorted_b64. by eapply lookup_lt_Some. }
  exists a. split.
  { rewrite (bh_adj_ranked_b64 argsort pvals Hs k x i Hk). by rewrite <-Hlen. }
  destruct (adj_sorted_fle_b64 (length sp) q 0 sp eq_refl
              (in_unit_sorted_pvals_b64 argsort pvals Hs Hu)
              (λ k x Hk, proj1 (Hag k x Hk)) k a Ha) as [_ Hadj].
  pose proof (flag_passes_b64 sp q k x
                (Sorted_sorted_pvals_b64 argsort pvals Hs)) as Hflag.
  rewrite Hlen in Hflag. specialize (Hflag Hasc Hspk). rewrite <-Hlen in Hflag.
  assert (B64.fle a q = true ↔
          match B64.crit_of sp q with
          | Some c => B64.fle x c = true
          | None => False
          end) as Hiff.
  { rewrite Hadj, Hflag. split; intros (k' & y & Hle & Hy & Hq);
      exists k', y; (split_and!; [done..|]);
      destruct (Hag k' y Hy) as [_ Heq]; simpl in *; congruence. }
  unfold B64.bh_flags. fold sp. destruct (B64.crit_of sp q) as [c|].
  - rewrite list_lookup_fmap, Hi. simpl. rewrite Hx. f_equal.
    symmetry. by apply eq_true_iff_eq.
  - apply lookup_lt_Some in Hi. rewrite lookup_replicate_2 by done. f_equal.
    destruct (B64.fle a q); [by destruct (proj1 Hiff)|done].
Qed.

(** *** Reordering the input *)














(** *** Missing entries *)

Lemma vals_all_nan pvals : Forall (λ p, p = NaN) pvals → vals pvals = [].
Proof. induction 1 as [|p pvals -> _ IH]; [done|]. by rewrite vals_cons_NaN. Qed.

Lemma vals_insert_at i pvals : vals (insert_at i NaN pvals) = vals pvals.
Proof.
  unfold insert_at, vals. rewrite omap_app. csimpl.
  by rewrite <-omap_app, take_drop.
Qed.

Lemma insert_at_ne_nil {A} i (d : A) l : insert_at i d l ≠ [].
Proof. unfold insert_at. by destruct (take i l). Qed.

Lemma length_insert_at {A} i (d : A) l : length (insert_at i d l) = S (length l).
Proof.
  unfold insert_at. rewrite length_app, length_cons.
  rewrite <-(take_drop i l) at 3. rewrite length_app. lia.
Qed.

Lemma insert_at_fmap {A B} (f : A → B) i d l :
  f <$> insert_at i d l = insert_at i (f d) (f <$> l).
Proof. unfold insert_at. by rewrite fmap_app, fmap_cons, fmap_take, fmap_drop. Qed.

Lemma insert_at_replicate {A} i (d : A) n :
  (i ≤ n)%nat → insert_at i d (replicate n d) = replicate (S n) d.
Proof.
  intros Hi. unfold insert_at. rewrite take_replicate, drop_replicate.
  rewrite <-(replicate_S (n - i) d), <-replicate_add. f_equal. lia.
Qed.

Lemma reinsert_insert_at {A} (d : A) pvals vs i :
  reinsert d (insert_at i NaN pvals) vs = insert_at i d (reinsert d pvals vs).
Proof.
  revert i vs. induction pvals as [|p pvals IH]; intros i vs.
  - by destruct i.
  - destruct i as [|i]; [done|].
    change (insert_at (S i) NaN (p :: pvals)) with (p :: insert_at i NaN pvals).
    destruct p as [|x]; simpl.
    + rewrite IH. done.
    + destruct vs as [|v vs]; rewrite IH; done.
Qed.

(** Finite entries receive the values handed to [reinsert], missing entries
    receive the filler. *)
Lemma reinsert_Forall2 {A} (P : A → Prop) (d : A) pvals vs :
  Forall P vs → length vs = length (vals pvals) →
  Forall2 (λ p a, match p with NaN => a = d | Fin _ => P a end)
    pvals (reinsert d pvals vs).
Proof.
  revert vs. induction pvals as [|[|x] pvals IH]; intros vs HP Hlen; simpl.
  - constructor.
  - constructor; [done|]. by apply IH.
  - destruct vs as [|v vs]; [done|].
    apply Forall_cons in HP as [Hv HP]. constructor; [done|].
    apply IH; [done|]. simpl in Hlen. lia.
Qed.

Lemma bh_adj_valid_Fin vs : Forall (λ a, ∃ y, a = Fin y) (bh_adj_valid vs).
Proof.
  apply Forall_lookup. intros i a Hi.
  assert (i < length vs)%nat as Hlt.
  { apply lookup_lt_Some in Hi. by rewrite length_bh_adj_valid in Hi. }
  unfold bh_adj_valid in Hi.
  assert (i ∈ argsort (Fin <$> vs)) as [k Hk]%list_elem_of_lookup.
  { rewrite argsort_Permutation, length_fmap. apply elem_of_seq. lia. }
  rewrite (scatter_lookup _ _ _ k i) in Hi.
  - rewrite list_lookup_fmap in Hi.
    destruct (adjQ (length vs) 0 (merge_sort Qcle vs) !! k) as [y|];
      simplify_eq/=. eauto.
  - rewrite argsort_Permutation. apply NoDup_seq.
  - by rewrite length_argsort, !length_fmap, length_adjQ, merge_sort_Permutation.
  - done.
  - by rewrite length_replicate.
Qed.

Lemma bh_adj_Forall2 pvals :
  Forall2 (λ p a, match p with NaN => a = NaN | Fin _ => ∃ y, a = Fin y end)
    pvals (bh_adj pvals).
Proof.
  unfold bh_adj. apply reinsert_Forall2; [apply bh_adj_valid_Fin|].
  apply length_bh_adj_valid.
Qed.

Lemma bh_flags_nan pvals q i :
  pvals !! i = Some NaN → bh_flags pvals q !! i = Some false.
Proof.
  intros Hi. unfold bh_flags. destruct (crit_of _ _) as [c|].
  - by rewrite list_lookup_fmap, Hi.
  - apply lookup_replicate_2. by eapply lookup_lt_Some.
Qed.

Lemma length_bh_flags pvals q : length (bh_flags pvals q) = length pvals.
Proof.
  unfold bh_flags. destruct (crit_of _ _); [apply length_fmap|apply length_replicate].
Qed.

Lemma bh_flags_insert_at pvals q i :
  (i ≤ length pvals)%nat →
  bh_flags (insert_at i NaN pvals) q = insert_at i false (bh_flags pvals q).
Proof.
  intros Hi. unfold bh_flags, sorted_vals. rewrite vals_insert_at.
  destruct (crit_of _ _) as [c|].
  - by rewrite insert_at_fmap.
  - by rewrite length_insert_at, insert_at_replicate.
Qed.

Lemma bh_crit_insert_at pvals q i :
  bh_crit (insert_at i NaN pvals) q = bh_crit pvals q.
Proof. unfold bh_crit, sorted_vals. by rewrite vals_insert_at. Qed.

Lemma bh_adj_insert_at pvals i :
  bh_adj (insert_at i NaN pvals) = insert_at i NaN (bh_adj pvals).
Proof. unfold bh_adj. by rewrite vals_insert_at, reinsert_insert_at. Qed.

(** The outputs for the three kinds of input. *)
Lemma fdr_bh_cases pvals q :
  fdr_bh pvals q
  = Ok (if decide (pvals = []) then ([], Fin 0, [])
        else if decide (vals pvals = []) then
          (replicate (length pvals) false, NaN, replicate (length pvals) NaN)
        else (bh_flags pvals q, bh_crit pvals q, bh_adj pvals)).
Proof.
  destruct (decide (pvals = [])) as [->|Hp]; [done|].
  destruct (decide (vals pvals = [])) as [Hnil|Hne].
  - by apply fdr_bh_all_nan.
  - by apply fdr_bh_valid.
Qed.

(** C8, as stated, fails on the empty input: inserting a missing entry
    changes the critical p-value from 0 to NaN. *)
Lemma C8_insert_into_empty_refuted :
  ∃ h crit adj,
    fdr_bh [] (py_float 0.05) = Ok (h, crit, adj) ∧
    fdr_bh (insert_at 0 NaN []) (py_float 0.05)
    ≠ Ok (insert_at 0 false h, crit, insert_at 0 NaN adj).
Proof. eexists _, _, _. split; [apply fdr_bh_nil|]. done. Qed.

(** C8, amended: the outputs have the length of the input; at a missing
    entry the flag is false and the adjusted value is NaN; at a finite entry
    the adjusted value is finite; and inserting a missing entry at any
    position inserts a false flag and a NaN adjusted value at that position
    and changes no other flag or adjusted value, nor, when the input is not
    empty, the critical p-value. *)
Theorem C8_missing_entries pvals q :
  ∃ h crit adj,
    fdr_bh pvals q = Ok (h, crit, adj) ∧
    length h = length pvals ∧ length adj = length pvals ∧
    (∀ i, pvals !! i = Some NaN → h !! i = Some false ∧ adj !! i = Some NaN) ∧
    (∀ i x, pvals !! i = Some (Fin x) → ∃ a, adj !! i = Some (Fin a)) ∧
    (∀ i, (i ≤ length pvals)%nat →
       ∃ crit',
         fdr_bh (insert_at i NaN pvals) q
         = Ok (insert_at i false h, crit', insert_at i NaN adj) ∧
         (pvals ≠ [] → crit' = crit)).
Proof.
  destruct (decide (pvals = [])) as [->|Hp].
  { eexists _, _, _. split_and!; [apply fdr_bh_nil|done..|].
    intros i Hi. exists NaN. destruct i; [|simpl in Hi; lia]. done. }
  destruct (decide (vals pvals = [])) as [Hnil|Hne].
  - eexists _, _, _. split_and!; [by apply fdr_bh_all_nan|..].
    + apply length_replicate.
    + apply length_replicate.
    + intros i Hi%lookup_lt_Some. by rewrite !lookup_replicate_2.
    + intros i x Hi. by destruct (vals_ne_nil _ _ _ Hi).
    + intros i Hi. exists NaN. split; [|done].
      rewrite fdr_bh_all_nan, length_insert_at, !insert_at_replicate;
        [done..|apply insert_at_ne_nil|by rewrite vals_insert_at].
  - exists (bh_flags pvals q), (bh_crit pvals q), (bh_adj pvals).
    pose proof (bh_adj_Forall2 pvals) as Hadj.
    split_and!; [by apply fdr_bh_valid|..].
    + apply length_bh_flags.
    + symmetry. by eapply Forall2_length.
    + intros i Hi. split; [by apply bh_flags_nan|].
      destruct (Forall2_lookup_l _ _ _ _ _ Hadj Hi) as (a & Ha & ->). done.
    + intros i x Hi.
      destruct (Forall2_lookup_l _ _ _ _ _ Hadj Hi) as (a & Ha & y & ->). eauto.
    + intros i Hi. exists (bh_crit pvals q). split; [|done].
      rewrite fdr_bh_valid by (by rewrite vals_insert_at).
      by rewrite bh_flags_insert_at, bh_crit_insert_at, bh_adj_insert_at.
Qed.

(** C9, as stated, fails: on an input whose only entry is missing the
    critical p-value returned is NaN, not 0. *)
Lemma C9_all_missing_refuted :
  ∃ h crit adj,
    fdr_bh [NaN] (py_float 0.05) = Ok (h, crit, adj) ∧ crit ≠ py_float 0.
Proof. eexists _, _, _. split; [reflexivity|done]. Qed.

(** C9, amended: on a non-empty input in which every entry is missing,
    [fdr_bh] returns all flags false, all adjusted values NaN, and NaN as
    critical p-value. *)
Theorem C9_all_missing pvals q :
  pvals ≠ [] → Forall (λ p, p = NaN) pvals →
  fdr_bh pvals q
  = Ok (replicate (length pvals) false, NaN, replicate (length pvals) NaN).
Proof. intros Hp Hall. apply fdr_bh_all_nan; [done|]. by apply vals_all_nan. Qed.

(** C10: [fdr_bh] returns a result on every input, no operation of it
    raises; on the empty input the flags and the adjusted values are empty. *)
Theorem C10_total :
  (∀ pvals q, ∃ h crit adj, fdr_bh pvals q = Ok (h, crit, adj)) ∧
  (∀ q, ∃ crit, fdr_bh [] q = Ok ([], crit, [])).
Proof.
  split.
  - intros pvals q. rewrite fdr_bh_cases. repeat case_decide; eauto.
  - intros q. eexists. apply fdr_bh_nil.
Qed.

(** ** The properties at concrete inputs

    Mostly the input [0.5, nan, 0.01] with q = 0.05: two finite entries,
    sorted [0.01, 0.5], with thresholds 0.025 and 0.05. *)

(** C2 at the input [0.5, nan, 0.01, 0.5] with q = 0.05, sorted by the merge
    sort: sorted values [0.01, 0.5, 0.5]; the adjusted values are 0.5 for
    both entries 0.5 and min(1.0, min((3 / 1) * 0.01, 0.5)) = 0.03 for the
    entry 0.01. *)
Lemma C2_step_down_recurrence_witness :
  let pvals := [0.5; B64.nan; 0.01; 0.5]%float in
  B64.sorts (B64.valid pvals) (B64.merge_argsort (B64.valid pvals)) ∧
  B64.valid pvals ≠ [] ∧ B64.in_unit pvals ∧
  ∃ h crit adj,
    B64.fdr_bh B64.merge_argsort pvals 0.05%float = Ok (h, crit, adj) ∧
    adj = [0.5; B64.nan; 0.03; 0.5]%float ∧
    ∀ k x i a, B64.ranked B64.merge_argsort pvals !! k = Some (x, i) →
      adj !! i = Some a → B64.fle a 1%float = true.
Proof.
  intros pvals.
  assert (B64.sorts (B64.valid pvals) (B64.merge_argsort (B64.valid pvals)))
    as H0 by compute_done.
  assert (B64.valid pvals ≠ []) as H1 by (vm_compute; congruence).
  assert (B64.in_unit pvals) as H2 by compute_done.
  split_and!; [done..|].
  destruct (C2_step_down_recurrence B64.merge_argsort pvals 0.05%float H0 H1)
    as (h & crit & adj & Hrun & _ & _ & _ & _ & Hle).
  exists h, crit, adj. split_and!; [done| |by apply Hle].
  vm_compute in Hrun. by injection Hrun as _ _ <-.
Defined.

(** C3 at the input [0.001, 0.010000000000000002, 0.5, ..., 0.5] (ten
    entries) with q = 0.05, sorted by the merge sort: rank 2 is the largest
    rank that passes, its threshold (2 / 10) * 0.05 being
    0.010000000000000002 in binary64. *)
Lemma C3_critical_value_witness :
  let pvals :=
    [0.001; 0.010000000000000002; 0.5; 0.5; 0.5; 0.5; 0.5; 0.5; 0.5; 0.5]%float in
  let q := 0.05%float in
  let c := 0.010000000000000002%float in
  let sp := B64.sorted_pvals B64.merge_argsort pvals in
  B64.sorts (B64.valid pvals) (B64.merge_argsort (B64.valid pvals)) ∧
  sp !! 1%nat = Some c ∧
  B64.fle c (B64.thr (length sp) q 1) = true ∧
  (∀ k' x, (1 < k')%nat → sp !! k' = Some x →
           B64.fle x (B64.thr (length sp) q k') = false) ∧
  ∃ h adj,
    B64.fdr_bh B64.merge_argsort pvals q = Ok (h, c, adj) ∧
    ∀ i x, pvals !! i = Some x →
      h !! i = Some (if B64.isnan x then false else B64.fle x c).
Proof.
  intros pvals q c sp.
  assert (B64.sorts (B64.valid pvals) (B64.merge_argsort (B64.valid pvals)))
    as H0 by compute_done.
  assert (sp = pvals) as Hs by (vm_compute; reflexivity).
  assert (sp !! 1%nat = Some c) as H1 by (by rewrite Hs).
  assert (B64.fle c (B64.thr (length sp) q 1) = true) as H2
    by (rewrite Hs; vm_compute; reflexivity).
  assert (∀ k' x, (1 < k')%nat → sp !! k' = Some x →
            B64.fle x (B64.thr (length sp) q k') = false) as H3.
  { intros k' x Hk Hx. rewrite Hs in Hx |- *.
    do 2 (destruct k' as [|k']; [lia|]).
    do 8 (destruct k' as [|k'];
      [injection Hx as <-; vm_compute; reflexivity|]).
    done. }
  split_and!; [done..|].
  exact (C3_critical_value B64.merge_argsort pvals q 1 c H0 H1 H2 H3).
Defined.

(** C4 at the input [0.5, nan] with q = 0.05, sorted by the merge sort: the
    only rank has threshold 0.05 and fails. *)
Lemma C4_no_rank_passes_witness :
  let pvals := [0.5; B64.nan]%float in
  let q := 0.05%float in
  let sp := B64.sorted_pvals B64.merge_argsort pvals in
  B64.sorts (B64.valid pvals) (B64.merge_argsort (B64.valid pvals)) ∧
  B64.valid pvals ≠ [] ∧
  (∀ k x, sp !! k = Some x → B64.fle x (B64.thr (length sp) q k) = false) ∧
  ∃ adj,
    B64.fdr_bh B64.merge_argsort pvals q
    = Ok (replicate (length pvals) false, 0%float, adj).
Proof.
  intros pvals q sp.
  assert (B64.sorts (B64.valid pvals) (B64.merge_argsort (B64.valid pvals)))
    as H0 by compute_done.
  assert (B64.valid pvals ≠ []) as H1 by (vm_compute; congruence).
  assert (sp = [0.5%float]) as Hs by (vm_compute; reflexivity).
  assert (∀ k x, sp !! k = Some x →
            B64.fle x (B64.thr (length sp) q k) = false) as H2.
  { intros k x Hx. rewrite Hs in Hx |- *.
    destruct k as [|k]; [|done]. injection Hx as <-. vm_compute. reflexivity. }
  split_and!; [done..|].
  exact (proj1 C4_no_rank_passes B64.merge_argsort pvals q H0 H1 H2).
Defined.


(** C6 at the input [0.5, nan, 0.01, 0.5] with q = 0.05, sorted by the merge
    sort: the thresholds of the three ranks ascend; the tests of rank 1
    (0.01 against (1 / 3) * 0.05, and (3 / 1) * 0.01 against 0.05) both hold,
    those of ranks 2 and 3 all fail. *)
Lemma C6_adjusted_decides_witness :
  let pvals := [0.5; B64.nan; 0.01; 0.5]%float in
  let q := 0.05%float in
  B64.sorts (B64.valid pvals) (B64.merge_argsort (B64.valid pvals)) ∧
  B64.in_unit pvals ∧
  B64.thr_ascend (length (B64.valid pvals)) q ∧
  B64.tests_agree (B64.sorted_pvals B64.merge_argsort pvals) q ∧
  ∃ h crit adj,
    B64.fdr_bh B64.merge_argsort pvals q = Ok (h, crit, adj) ∧
    ∀ i x, pvals !! i = Some x →
      ∃ a, adj !! i = Some a ∧ h !! i = Some (B64.fle a q).
Proof.
  intros pvals q.
  assert (B64.sorts (B64.valid pvals) (B64.merge_argsort (B64.valid pvals)))
    as H0 by compute_done.
  assert (B64.in_unit pvals) as H1 by compute_done.
  assert (B64.thr_ascend (length (B64.valid pvals)) q) as H2.
  { assert (length (B64.valid pvals) = 3%nat) as -> by (vm_compute; reflexivity).
    intros k k' Hle Hlt.
    do 3 (destruct k' as [|k'];
      [do 3 (destruct k as [|k]; [first [lia|vm_compute; reflexivity]|]); lia|]).
    lia. }
  assert (B64.tests_agree (B64.sorted_pvals B64.merge_argsort pvals) q) as H3.
  { assert (B64.sorted_pvals B64.merge_argsort pvals = [0.01; 0.5; 0.5]%float)
      as -> by (vm_compute; reflexivity).
    intros k x Hx.
    do 3 (destruct k as [|k];
      [injection Hx as <-; split; vm_compute; reflexivity|]).
    done. }
  split_and!; [done..|].
  exact (C6_adjusted_decides B64.merge_argsort pvals q H0 H1 H2 H3).
Defined.


(** C8 at the input [0.5, nan, 0.01] with q = 0.05: a missing entry inserted
    before position 1. *)
Lemma C8_missing_entries_witness :
  let pvals := [py_float 0.5; NaN; py_float 0.01] in
  let q := py_float 0.05 in
  (1 ≤ length pvals)%nat ∧ pvals ≠ [] ∧
  ∃ h crit adj,
    fdr_bh pvals q = Ok (h, crit, adj) ∧
    fdr_bh (insert_at 1 NaN pvals) q
    = Ok (insert_at 1 false h, crit, insert_at 1 NaN adj).
Proof.
  intros pvals q.
  assert (1 ≤ length pvals)%nat as H1 by (simpl; lia).
  assert (pvals ≠ []) as H2 by done.
  split_and!; [done..|].
  destruct (C8_missing_entries pvals q)
    as (h & crit & adj & Hrun & _ & _ & _ & _ & Hins).
  destruct (Hins 1%nat H1) as (crit' & Hrun' & Hcrit).
  exists h, crit, adj. split; [done|]. by rewrite <-(Hcrit H2).
Defined.

(** C9 at the input [nan, nan]. *)
Lemma C9_all_missing_witness :
  let pvals := [NaN; NaN] in
  pvals ≠ [] ∧ Forall (λ p, p = NaN) pvals ∧
  fdr_bh pvals (py_float 0.05)
  = Ok (replicate (length pvals) false, NaN, replicate (length pvals) NaN).
Proof.
  intros pvals.
  assert (pvals ≠ []) as H1 by done.
  assert (Forall (λ p, p = NaN) pvals) as H2 by (by repeat constructor).
  split_and!; [done..|].
  exact (C9_all_missing pvals (py_float 0.05) H1 H2).
Defined.

(** * Further properties

    ** The loops of the test harness *)

Lemma where_from_app i l1 l2 :
  where_from i (l1 ++ l2) = where_from i l1 ++ where_from (i + length l1) l2.
Proof.
  revert i. induction l1 as [|b l1 IH]; intros i; simpl.
  - by rewrite Nat.add_0_r.
  - rewrite IH, <-(assoc_L (++)). do 3 f_equal. lia.
Qed.

Lemma largest_of_snoc mask b :
  largest_of (mask ++ [b]) = if b then S (length mask) else largest_of mask.
Proof.
  unfold largest_of, np_where. rewrite where_from_app. simpl.
  destruct b; simpl.
  - by rewrite last_snoc.
  - by rewrite !(right_id_L [] (++)).
Qed.




Lemma foldM_app {A B} (f : A → B → result A) a l1 l2 :
  foldM f a (l1 ++ l2) = a' ← foldM f a l1; foldM f a' l2.
Proof.
  revert a. induction l1 as [|x l1 IH]; intros a; simpl; [done|].
  destruct (f a x) as [a'|e]; simpl; [apply IH|done].
Qed.





Lemma largest_of_0 mask : largest_of mask = 0%nat → ∀ i, mask !! i ≠ Some true.
Proof.
  unfold largest_of. destruct (last (np_where mask)) eqn:Hl; [done|].
  intros _. by apply last_np_where_None.
Qed.

Lemma largest_of_S mask k :
  largest_of mask = S k →
  mask !! k = Some true ∧ ∀ j, (k < j)%nat → mask !! j ≠ Some true.
Proof.
  unfold largest_of. destruct (last (np_where mask)) as [k'|] eqn:Hl; [|done].
  intros [= ->]. by apply last_np_where.
Qed.

(** The same loops in binary64. *)

Lemma pass_mask_lookup_b64 p_vals q i :
  B64.pass_mask p_vals q !! i
  = (λ p, B64.fle p (B64.thr (length p_vals) q i)) <$> p_vals !! i.
Proof. unfold B64.pass_mask. apply list_lookup_imap. Qed.

Lemma length_pass_mask_b64 p_vals q :
  length (B64.pass_mask p_vals q) = length p_vals.
Proof. unfold B64.pass_mask. apply length_imap. Qed.

Lemma int_div_ok_b64 a b :
  b ≠ 0%nat → B64.int_div a b = Ok (B64.fdiv (B64.of_int a) (B64.of_int b)).
Proof. by destruct b. Qed.

(** The backward loop with [break], on the first [n] indices. *)
Lemma find_largest_take_b64 p_vals q n :
  (n ≤ length p_vals)%nat →
  B64.find_largest p_vals (length p_vals) q (reverse (seq 0 n))
  = Ok (largest_of (take n (B64.pass_mask p_vals q))).
Proof.
  induction n as [|n IH]; intros Hn; [done|].
  rewrite seq_S, reverse_snoc. cbn [B64.find_largest plus].
  destruct (lookup_lt_is_Some_2 p_vals n) as [p Hp]; [lia|].
  rewrite (get_item_Some _ _ p), bind_Ok by done.
  rewrite int_div_ok_b64, bind_Ok by lia.
  rewrite (take_S_r _ _ (B64.fle p (B64.thr (length p_vals) q n)))
    by (by rewrite pass_mask_lookup_b64, Hp).
  rewrite largest_of_snoc, length_take, length_pass_mask_b64.
  rewrite Nat.add_1_r, Nat.min_l by lia. fold (B64.thr (length p_vals) q n).
  destruct (B64.fle p _); [done|]. apply IH. lia.
Qed.

(** The forward loop, on the first [n] indices. *)
Lemma manual_largest_take_b64 p_vals q n :
  (n ≤ length p_vals)%nat →
  foldM (B64.manual_step p_vals (length p_vals) q) 0%nat (seq 0 n)
  = Ok (largest_of (take n (B64.pass_mask p_vals q))).
Proof.
  induction n as [|n IH]; intros Hn; [done|].
  rewrite seq_S, foldM_app, IH, bind_Ok by lia. cbn [foldM plus].
  destruct (lookup_lt_is_Some_2 p_vals n) as [p Hp]; [lia|].
  unfold B64.manual_step. rewrite int_div_ok_b64, bind_Ok by lia.
  rewrite (get_item_Some _ _ p), !bind_Ok by done.
  rewrite (take_S_r _ _ (B64.fle p (B64.thr (length p_vals) q n)))
    by (by rewrite pass_mask_lookup_b64, Hp).
  rewrite largest_of_snoc, length_take, length_pass_mask_b64.
  rewrite Nat.add_1_r, Nat.min_l by lia. fold (B64.thr (length p_vals) q n).
  by destruct (B64.fle p _).
Qed.

Lemma expected_largest_eq_b64 p_vals q :
  B64.expected_largest p_vals q = Ok (largest_of (B64.pass_mask p_vals q)).
Proof.
  unfold B64.expected_largest. rewrite find_largest_take_b64 by done.
  by rewrite <-(length_pass_mask_b64 p_vals q), firstn_all.
Qed.

Lemma manual_largest_eq_b64 p_vals q :
  B64.manual_largest p_vals q = Ok (largest_of (B64.pass_mask p_vals q)).
Proof.
  unfold B64.manual_largest. rewrite manual_largest_take_b64 by done.
  by rewrite <-(length_pass_mask_b64 p_vals q), firstn_all.
Qed.

(** X1: in binary64 the backward loop with [break] of test_fdr.py and the
    forward loop of test_fdr_simple.py return the same count on every array
    (NaN entries included) and every level, without raising: 0 when no index
    passes its threshold [((i + 1) / m) * q] as the loops compute it, and
    otherwise the rank of the last index that passes. *)
Theorem X1_harness_loops_agree p_vals q :
  ∃ n,
    B64.expected_largest p_vals q = Ok n ∧ B64.manual_largest p_vals q = Ok n ∧
    match n with
    | O => ∀ i p, p_vals !! i = Some p →
             B64.fle p (B64.thr (length p_vals) q i) = false
    | S k => (∃ p, p_vals !! k = Some p ∧
                   B64.fle p (B64.thr (length p_vals) q k) = true) ∧
             ∀ j p, (k < j)%nat → p_vals !! j = Some p →
               B64.fle p (B64.thr (length p_vals) q j) = false
    end.
Proof.
  exists (largest_of (B64.pass_mask p_vals q)).
  split; [apply expected_largest_eq_b64|]. split; [apply manual_largest_eq_b64|].
  destruct (largest_of (B64.pass_mask p_vals q)) as [|k] eqn:Hn.
  - intros i p Hi. apply not_true_is_false. intros Hpass.
    apply (largest_of_0 _ Hn i). by rewrite pass_mask_lookup_b64, Hi; simpl; f_equal.
  - apply largest_of_S in Hn as [Hk Hmax]. split.
    + rewrite pass_mask_lookup_b64 in Hk.
      apply fmap_Some in Hk as (p & Hp & Hpass). eauto.
    + intros j p Hj Hp. apply not_true_is_false. intros Hpass.
      apply (Hmax j Hj). by rewrite pass_mask_lookup_b64, Hp; simpl; f_equal.
Qed.

(** ** The flagged entries are the smallest ones *)





Lemma count_true_app l1 l2 :
  count_true (l1 ++ l2) = (count_true l1 + count_true l2)%nat.
Proof. induction l1 as [|b l1 IH]; simpl; [done|]. rewrite IH. lia. Qed.

Lemma count_true_replicate n b :
  count_true (replicate n b) = if b then n else 0%nat.
Proof. induction n as [|n IH]; simpl; [by destruct b|]. rewrite IH. by destruct b. Qed.

Lemma count_true_Permutation l1 l2 : l1 ≡ₚ l2 → count_true l1 = count_true l2.
Proof. induction 1; simpl; lia. Qed.



Lemma largest_of_le mask : (largest_of mask ≤ length mask)%nat.
Proof.
  destruct (largest_of mask) as [|k] eqn:Hn; [lia|].
  apply largest_of_S in Hn as [Hk _]. apply lookup_lt_Some in Hk. lia.
Qed.








(** ** The outputs as functions of the p-value *)

(** On p-values the flag of an entry is the comparison of its adjusted value
    with [q], and the adjusted value is a function of the entry's value. *)
Lemma bh_flags_by_value pvals q :
  in_unit pvals →
  bh_flags pvals q
  = (λ p, fle (adj_float (sorted_vals pvals) p) q) <$> pvals.
Proof.
  intros Hu. apply list_eq. intros i. rewrite list_lookup_fmap.
  destruct (pvals !! i) as [[|x]|] eqn:Hi.
  - by rewrite bh_flags_nan.
  - destruct (sorted_vals_lookup _ _ _ Hi) as [k Hk].
    cbn [fmap option_fmap option_map adj_float].
    rewrite (bh_decision _ q k x)
      by auto using Sorted_sorted_vals, in_unit_sorted_vals.
    unfold bh_flags. destruct (crit_of (sorted_vals pvals) q) as [c|].
    + by rewrite list_lookup_fmap, Hi.
    + rewrite lookup_replicate_2; [done|]. by eapply lookup_lt_Some.
  - apply lookup_ge_None_2. rewrite length_bh_flags. by apply lookup_ge_None_1.
Qed.

Lemma fdr_bh_by_value pvals q :
  in_unit pvals →
  ∃ crit,
    fdr_bh pvals q
    = Ok ((λ p, fle (adj_float (sorted_vals pvals) p) q) <$> pvals, crit,
          adj_float (sorted_vals pvals) <$> pvals).
Proof.
  intros Hu. rewrite fdr_bh_cases.
  destruct (decide (pvals = [])) as [->|Hp]; [by eexists|].
  destruct (decide (vals pvals = [])) as [Hnil|Hne].
  - eexists. do 3 f_equal.
    + symmetry. apply const_fmap. intros i [|x] Hi; [done|].
      by destruct (vals_ne_nil _ _ _ Hi).
    + symmetry. apply const_fmap. intros i [|x] Hi; [done|].
      by destruct (vals_ne_nil _ _ _ Hi).
  - eexists. by rewrite bh_flags_by_value, bh_adj_pointwise.
Qed.

Lemma ratio_ge_1 m k y :
  (S k ≤ m)%nat → 0 ≤ y → y ≤ of_nat m / of_nat (S k) * y.
Proof.
  intros Hk Hy. destruct m as [|m]; [lia|].
  rewrite <-(ratio_last m y) at 1. apply ratio_anti; [done|lia].
Qed.

Lemma ratio_le_m m k y :
  0 ≤ y → of_nat m / of_nat (S k) * y ≤ of_nat m * y.
Proof.
  intros Hy. etrans; [apply (ratio_anti m 0 k); [done|lia]|].
  assert (of_nat 1 = 1) as -> by (by apply Qc_is_canon).
  rewrite (right_id 1 Qcdiv). apply Qcle_refl.
Qed.

(** The step-down value of a rank lies between its p-value and [m] times
    its p-value. *)
Lemma adjQ_bounds sp k x a :
  Sorted Qcle sp → Forall (λ y, 0 ≤ y ∧ y ≤ 1) sp →
  sp !! k = Some x → adjQ (length sp) 0 sp !! k = Some a →
  x ≤ a ∧ a ≤ of_nat (length sp) * x.
Proof.
  intros Hs Hu Hk Ha.
  pose proof (unit_le_1 sp Hu) as Hu1.
  assert (0 ≤ x) as Hx0 by (eapply Forall_lookup_1 in Hu; [|exact Hk]; tauto).
  split.
  - assert (a ≤ a) as Haa by apply Qcle_refl.
    apply (adjQ_le_iff (length sp) 0 sp k a a eq_refl Hu1 Ha)
      in Haa as (j & y & Hkj & Hj & Hle).
    assert (x ≤ y) as Hxy by (by eapply (Sorted_lookup_le sp k j)).
    etrans; [exact Hxy|]. etrans; [|exact Hle].
    apply ratio_ge_1; [apply lookup_lt_Some in Hj; simpl; lia|by etrans].
  - etrans; [|apply (ratio_le_m _ k); done].
    apply (adjQ_le_iff (length sp) 0 sp k a _ eq_refl Hu1 Ha).
    exists k, x. split_and!; [lia|done|apply Qcle_refl].
Qed.

Lemma adj_value_bounds pvals i x :
  in_unit pvals → pvals !! i = Some (Fin x) →
  x ≤ adj_value (sorted_vals pvals) x ∧
  adj_value (sorted_vals pvals) x ≤ 1 ∧
  adj_value (sorted_vals pvals) x ≤ of_nat (length (vals pvals)) * x.
Proof.
  intros Hu Hi.
  pose proof (Sorted_sorted_vals pvals) as Hs.
  pose proof (in_unit_sorted_vals pvals Hu) as Hus.
  destruct (sorted_vals_lookup _ _ _ Hi) as [k Hk].
  pose proof (adj_value_lookup _ k x Hs Hus Hk) as Ha.
  destruct (adjQ_bounds _ k x _ Hs Hus Hk Ha) as [Hlo Hhi].
  rewrite length_sorted_vals in Hhi. split_and!; [done| |done].
  pose proof (adjQ_le_1 (length (sorted_vals pvals)) 0 _ (unit_le_1 _ Hus)) as H1.
  by eapply Forall_lookup_1 in H1.
Qed.





(** X8: on p-values in [0, 1] at level [q = 0], exactly the entries with
    p-value 0 are flagged. *)
Theorem X8_level_zero pvals :
  in_unit pvals →
  ∃ h crit adj,
    fdr_bh pvals (py_float 0) = Ok (h, crit, adj) ∧
    ∀ i x, pvals !! i = Some (Fin x) → h !! i = Some (bool_decide (x = 0)).
Proof.
  intros Hu. destruct (fdr_bh_by_value pvals (py_float 0) Hu) as [crit Hrun].
  eexists _, _, _. split; [exact Hrun|]. intros i x Hi.
  rewrite list_lookup_fmap, Hi. simpl. f_equal.
  destruct (adj_value_bounds pvals i x Hu Hi) as (Hlo & _ & Hhi).
  assert (0 ≤ x) as Hx0.
  { assert (x ∈ vals pvals) as Hin
      by (apply elem_of_vals, list_elem_of_lookup; eauto).
    unfold in_unit in Hu. rewrite Forall_forall in Hu.
    by destruct (Hu x Hin). }
  apply bool_decide_ext. split.
  - intros Ha. apply Qcle_antisym; [by etrans|done].
  - intros ->. by rewrite Qcmult_0_r in Hhi.
Qed.

(** X9: at an undefined (NaN) level [q] no entry is flagged, whatever the
    input. *)
Theorem X9_nan_level pvals :
  ∃ h crit adj,
    fdr_bh pvals NaN = Ok (h, crit, adj) ∧ count_true h = 0%nat.
Proof.
  rewrite fdr_bh_cases.
  destruct (decide (pvals = [])) as [->|Hp]; [by eexists _, _, _|].
  destruct (decide (vals pvals = [])) as [Hnil|Hne].
  - eexists _, _, _. split; [done|]. by rewrite count_true_replicate.
  - eexists _, _, _. split; [done|].
    unfold bh_flags. by rewrite crit_of_NaN, count_true_replicate.
Qed.

(** ** Edge cases of the level and of the number of tests *)

Lemma last_sorted_vals_max pvals c :
  last (sorted_vals pvals) = Some c →
  c ∈ vals pvals ∧ Forall (λ x, x ≤ c) (vals pvals).
Proof.
  intros Hlast. split.
  - rewrite <-sorted_vals_Permutation. by apply last_Some_elem_of.
  - rewrite <-sorted_vals_Permutation. apply Forall_lookup. intros i x Hi.
    rewrite last_lookup in Hlast.
    eapply (Sorted_lookup_le _ i); [apply Sorted_sorted_vals| |done..].
    apply lookup_lt_Some in Hi. lia.
Qed.

(** X10: when every finite entry is at most [q] (so for p-values at
    [q = 1]), every finite entry is flagged and the critical p-value is the
    largest finite entry. *)
Theorem X10_all_within_level pvals qv :
  vals pvals ≠ [] → Forall (λ x, x ≤ qv) (vals pvals) →
  ∃ c adj,
    fdr_bh pvals (Fin qv) = Ok ((λ p, negb (isnan p)) <$> pvals, Fin c, adj) ∧
    c ∈ vals pvals ∧ Forall (λ x, x ≤ c) (vals pvals).
Proof.
  intros Hne Hq.
  destruct (last (sorted_vals pvals)) as [c|] eqn:Hlast.
  2:{ apply last_None in Hlast. destruct Hne.
      apply Permutation_nil_r. by rewrite <-sorted_vals_Permutation, Hlast. }
  destruct (last_sorted_vals_max pvals c Hlast) as [Hin Hmax].
  assert (crit_of (sorted_vals pvals) (Fin qv) = Some c) as Hc.
  { apply crit_of_Some. rewrite last_lookup in Hlast.
    exists (pred (length (sorted_vals pvals))).
    pose proof (lookup_lt_Some _ _ _ Hlast) as Hlt.
    split_and!; [done| |].
    - rewrite fle_thr. apply bool_decide_eq_true.
      replace (length (sorted_vals pvals))
        with (S (pred (length (sorted_vals pvals)))) at 2 by lia.
      rewrite ratio_last. rewrite Forall_forall in Hq. by apply Hq.
    - intros k' x Hk' Hx%lookup_lt_Some. lia. }
  exists c, (bh_adj pvals). split_and!; [|done..].
  rewrite fdr_bh_valid by done. unfold bh_flags, bh_crit. rewrite Hc.
  do 3 f_equal. apply list_fmap_ext. intros i [|x] Hi; [done|].
  simpl. apply bool_decide_eq_true. rewrite Forall_forall in Hmax.
  apply Hmax, elem_of_vals, list_elem_of_lookup. eauto.
Qed.

Lemma thr_single q : thr 1 q 0 = q.
Proof.
  unfold thr. destruct q as [|qv]; [done|]. simpl. f_equal.
  apply (ratio_last 0).
Qed.

(** X11: with a single finite entry the routine is the uncorrected test:
    the entry is flagged exactly when its p-value is at most [q], the
    critical p-value is that p-value when flagged and 0 otherwise, and the
    adjusted values are the input itself (the entry is not clamped to 1). *)
Theorem X11_single_test pvals q x :
  vals pvals = [x] →
  fdr_bh pvals q
  = Ok ((λ p, fle p q) <$> pvals,
        (if fle (Fin x) q then Fin x else Fin 0), pvals).
Proof.
  intros Hv. rewrite fdr_bh_valid by (by rewrite Hv).
  assert (sorted_vals pvals = [x]) as Hs by (unfold sorted_vals; by rewrite Hv).
  assert (crit_of [x] q = if fle (Fin x) q then Some x else None) as Hc.
  { unfold crit_of. change (sig_mask [x] q) with [fle (Fin x) (thr 1 q 0)].
    rewrite thr_single. by destruct (fle (Fin x) q). }
  assert (∀ i p, pvals !! i = Some p → p = NaN ∨ p = Fin x) as Hp.
  { intros i [|y] Hi; [by left|right]. f_equal.
    assert (y ∈ vals pvals) as Hin
      by (apply elem_of_vals, list_elem_of_lookup; eauto).
    rewrite Hv in Hin. by apply list_elem_of_singleton in Hin. }
  unfold bh_flags, bh_crit, bh_adj. rewrite Hs, Hc, Hv.
  f_equal. f_equal; [f_equal|].
  - destruct (fle (Fin x) q) eqn:Hpass.
    + apply list_fmap_ext. intros i p Hi.
      destruct (Hp i p Hi) as [->| ->]; [done|].
      rewrite Hpass. simpl. apply bool_decide_eq_true, Qcle_refl.
    + symmetry. apply const_fmap. intros i p Hi.
      by destruct (Hp i p Hi) as [->| ->].
  - by destruct (fle (Fin x) q).
  - change (bh_adj_valid [x]) with (id <$> (Fin <$> [x])).
    rewrite <-Hv, reinsert_fmap by done. apply list_fmap_id.
Qed.

(** ** Sorting and unsorting, filtering and reinserting *)

(** X12: [a[np.argsort(a)]] is [a] in ascending order (NaN last), and
    writing values computed from the sorted entries back through the same
    index array puts each at the position of its entry. *)
Theorem X12_sort_unsort {B} (f : float → B) (a : list float) (base : list B) :
  length base = length a →
  ∃ sorted,
    take_idx a (argsort a) = Ok sorted ∧
    Sorted sort_le sorted ∧ sorted ≡ₚ a ∧
    put_idx base (argsort a) (f <$> sorted) = Ok (f <$> a).
Proof.
  intros Hlen. unfold argsort.
  set (ps := merge_sort key_le (zip a (seq 0 (length a)))).
  assert (ps ≡ₚ zip a (seq 0 (length a))) as Hps by apply merge_sort_Permutation.
  exists ps.*1. split_and!.
  - apply take_idx_pairs. intros v i Hin. apply zip_seq_lookup. by rewrite <-Hps.
  - apply Sorted_fmap with (R1 := key_le); [done|]. apply Sorted_merge_sort, _.
  - by rewrite Hps, fst_zip by (rewrite length_seq; lia).
  - rewrite put_idx_ok.
    + f_equal. by apply scatter_pairs.
    + by rewrite !length_fmap.
    + fold (argsort a). rewrite Hlen. apply argsort_lt.
Qed.

Lemma mask_select_isnan pvals :
  mask_select pvals (negb <$> (isnan <$> pvals))
  = Ok (filter (λ p, p ≠ NaN) pvals).
Proof.
  rewrite mask_select_valid. f_equal.
  induction pvals as [|[|x] pvals IH]; [done|..].
  - by rewrite vals_cons_NaN, filter_cons_False by (by intros []).
  - by rewrite vals_cons_Fin, fmap_cons, filter_cons_True, IH.
Qed.

(** X13: [pvals[valid_mask]] keeps exactly the entries that are not NaN, in
    order, and assigning them back through the same mask into an array of
    NaN gives the input array again. *)
Theorem X13_select_reinsert pvals :
  let valid_mask := negb <$> (isnan <$> pvals) in
  mask_select pvals valid_mask = Ok (filter (λ p, p ≠ NaN) pvals) ∧
  mask_put (replicate (length pvals) NaN) valid_mask
    (filter (λ p, p ≠ NaN) pvals)
  = Ok pvals.
Proof.
  intros valid_mask. split; [apply mask_select_isnan|].
  pose proof (mask_select_isnan pvals) as Hsel.
  rewrite mask_select_valid in Hsel. injection Hsel as <-.
  unfold valid_mask. rewrite mask_put_valid by (by rewrite length_fmap).
  f_equal. rewrite <-(list_fmap_id (Fin <$> vals pvals)).
  rewrite reinsert_fmap by done. apply list_fmap_id.
Qed.

(** X14: the flagged entries are a lower set: when an entry is flagged,
    every finite entry with a p-value that is not larger is flagged too. *)
Theorem X14_flags_lower_set pvals q :
  ∃ h crit adj,
    fdr_bh pvals q = Ok (h, crit, adj) ∧
    ∀ i j x y,
      pvals !! i = Some (Fin x) → pvals !! j = Some (Fin y) → y ≤ x →
      h !! i = Some true → h !! j = Some true.
Proof.
  rewrite fdr_bh_cases.
  destruct (decide (pvals = [])) as [->|Hp]; [by eexists _, _, _|].
  destruct (decide (vals pvals = [])) as [Hnil|Hne].
  { eexists _, _, _. split; [done|]. intros i j x y Hi.
    by destruct (vals_ne_nil _ _ _ Hi). }
  eexists _, _, _. split; [done|]. intros i j x y Hi Hj Hyx.
  unfold bh_flags. destruct (crit_of (sorted_vals pvals) q) as [c|].
  - rewrite !list_lookup_fmap, Hi, Hj. simpl. intros [= Hf]. f_equal.
    apply bool_decide_eq_true. apply bool_decide_eq_true in Hf. by etrans.
  - rewrite lookup_replicate. by intros [? _].
Qed.

(** ** Further properties in binary64 *)

Lemma length_bh_flags_b64 argsort pvals q :
  length (B64.bh_flags argsort pvals q) = length pvals.
Proof.
  unfold B64.bh_flags. destruct (B64.crit_of _ _);
    by rewrite ?length_fmap, ?length_replicate.
Qed.

Lemma length_bh_adj_b64 argsort pvals :
  length (B64.bh_adj argsort pvals) = length pvals.
Proof. unfold B64.bh_adj. by rewrite length_mask_fill, !length_fmap. Qed.

(** X15: in binary64, with infinities, signed zeros and NaN among the
    inputs and for the level, [fdr_bh] returns on every input without
    raising, whenever [argsort] keeps the promise of [np.argsort] on the
    valid entries; both arrays it returns have the length of the input. *)
Theorem X15_total_binary64 argsort pvals q :
  B64.sorts (B64.valid pvals) (argsort (B64.valid pvals)) →
  ∃ h crit adj,
    B64.fdr_bh argsort pvals q = Ok (h, crit, adj) ∧
    length h = length pvals ∧ length adj = length pvals.
Proof.
  intros Hs. destruct (decide (pvals = [])) as [->|Hp].
  { eexists _, _, _. split; [apply fdr_bh_nil_b64|done]. }
  destruct (decide (B64.valid pvals = [])) as [Hnil|Hne].
  - eexists _, _, _. split; [by apply fdr_bh_all_nan_b64|].
    by rewrite !length_replicate.
  - eexists _, _, _. split; [by apply fdr_bh_run_b64|].
    by rewrite length_bh_flags_b64, length_bh_adj_b64.
Qed.

(** X16: in binary64, whenever [argsort] keeps the promise of
    [np.argsort] on the valid entries, a missing entry is never flagged and
    its adjusted value is NaN; and the flagged entries form a lower set for
    [<=]: when an entry is flagged, so is every entry whose p-value is at
    most its own. *)
Theorem X16_flags_binary64 argsort pvals q :
  B64.sorts (B64.valid pvals) (argsort (B64.valid pvals)) →
  ∃ h crit adj,
    B64.fdr_bh argsort pvals q = Ok (h, crit, adj) ∧
    (∀ i x, pvals !! i = Some x → B64.isnan x = true →
       h !! i = Some false ∧ ∃ a, adj !! i = Some a ∧ B64.isnan a = true) ∧
    (∀ i j x y, pvals !! i = Some x → pvals !! j = Some y →
       h !! i = Some true → B64.fle y x = true → h !! j = Some true).
Proof.
  intros Hs. destruct (decide (pvals = [])) as [->|Hp].
  { eexists _, _, _. split; [apply fdr_bh_nil_b64|done]. }
  destruct (decide (B64.valid pvals = [])) as [Hnil|Hne].
  - eexists _, _, _. split; [by apply fdr_bh_all_nan_b64|]. split.
    + intros i x Hi _. apply lookup_lt_Some in Hi.
      rewrite !lookup_replicate_2 by done. eauto.
    + intros i j x y Hi Hj Hf. apply lookup_replicate in Hf as [? _]. done.
  - eexists _, _, _. split; [by apply fdr_bh_run_b64|]. split.
    + intros i x Hi Hx. split.
      * unfold B64.bh_flags. destruct (B64.crit_of _ _).
        -- by rewrite list_lookup_fmap, Hi; simpl; rewrite Hx.
        -- apply lookup_lt_Some in Hi. by rewrite lookup_replicate_2.
      * exists B64.nan. split; [|done]. unfold B64.bh_adj.
        apply mask_fill_false. by rewrite !list_lookup_fmap, Hi; simpl; rewrite Hx.
    + intros i j x y Hi Hj. unfold B64.bh_flags.
      destruct (B64.crit_of (B64.sorted_pvals argsort pvals) q) as [c|].
      * rewrite !list_lookup_fmap, Hi, Hj. simpl.
        destruct (B64.isnan x) eqn:Hx; [done|]. intros [= Hxc] Hyx.
        destruct (fle_isnan_b64 _ _ Hyx) as [-> _]. f_equal.
        by eapply fle_trans_b64.
      * intros Hf. apply lookup_replicate in Hf as [? _]. done.
Qed.

(** X17: the promise of [np.argsort] can be kept, by a merge sort, on every
    array of binary64 numbers (NaN, infinities and zeros of both signs
    included; [<=] is a total preorder on the numbers).  Whenever it is
    kept on the valid entries, the array [sorted_pvals] of the routine is
    ascending for [<=] and a rearrangement of the valid entries, and the
    positions the ranks are written back to are pairwise distinct. *)
Theorem X17_sorted_binary64 :
  (∀ a, B64.sorts a (B64.merge_argsort a)) ∧
  (∀ argsort pvals,
     B64.sorts (B64.valid pvals) (argsort (B64.valid pvals)) →
     Sorted B64.sort_le (B64.sorted_pvals argsort pvals) ∧
     B64.sorted_pvals argsort pvals ≡ₚ B64.valid pvals ∧
     (B64.ranked argsort pvals).*1 = B64.sorted_pvals argsort pvals ∧
     NoDup (B64.ranked argsort pvals).*2).
Proof.
  split; [apply merge_argsort_sorts_b64|]. intros argsort pvals Hs. split_and!.
  - by apply Sorted_sorted_pvals_b64.
  - by apply sorted_pvals_Permutation_b64.
  - apply ranked_fst_b64.
  - by apply NoDup_ranked_b64.
Qed.

(** X18: in binary64 the three tests of test_fdr.py that can fail pass on
    the arrays of the harness with q = 0.05 (sorted by the merge sort; the
    arrays are in ascending order and without ties): in test 1 the loop
    expects two significant tests and [fdr_bh] flags two, with the critical
    p-value 0.008 of rank 2; in test 2 nothing is flagged and the critical
    p-value is 0; in test 3 all ten entries are flagged.  Test 4 prints
    PASSED on either branch; its array gives no flag, and the manual
    procedure of test_fdr_simple.py finds no rank that passes on it. *)
Theorem X18_harness_passes_binary64 :
  B64.expected_largest B64.p_vals_1 0.05%float = Ok 2%nat ∧
  B64.test_1_check B64.merge_argsort B64.p_vals_1 0.05%float = Ok true ∧
  B64.test_2_check B64.merge_argsort B64.p_vals_2 0.05%float = Ok true ∧
  B64.test_3_check B64.merge_argsort B64.p_vals_3 0.05%float = Ok true ∧
  B64.manual_largest B64.p_vals_4 0.05%float = Ok 0%nat ∧
  ∃ crit adj,
    B64.fdr_bh B64.merge_argsort B64.p_vals_4 0.05%float
    = Ok (replicate 11 false, crit, adj).
Proof.
  split_and!; [vm_compute; reflexivity..|].
  eexists _, _. vm_compute. reflexivity.
Qed.

(** *** The number of flags and the level, in binary64 *)

Lemma crit_of_largest_b64 sp q :
  B64.crit_of sp q
  = match largest_of (B64.sig_mask sp q) with
    | O => None
    | S k => sp !! k
    end.
Proof.
  unfold B64.crit_of, largest_of.
  by destruct (last (np_where (B64.sig_mask sp q))).
Qed.

Lemma count_true_flags_valid_b64 c pvals :
  count_true ((λ p, if B64.isnan p then false else B64.fle p c) <$> pvals)
  = count_true ((λ p, B64.fle p c) <$> B64.valid pvals).
Proof.
  induction pvals as [|p pvals IH]; [done|].
  rewrite fmap_cons, valid_cons_b64. simpl. rewrite IH.
  by destruct (B64.isnan p).
Qed.

(** When the thresholds ascend, the flags of the sorted values are true up
    to the largest rank that passes and false after it. *)
Lemma sorted_flags_b64 sp q k c :
  Sorted B64.sort_le sp → B64.thr_ascend (length sp) q →
  largest_of (B64.sig_mask sp q) = S k → sp !! k = Some c →
  (λ x, B64.fle x c) <$> sp
  = replicate (S k) true ++ replicate (length sp - S k) false.
Proof.
  intros Hs Hasc Hn Hk.
  apply largest_of_S in Hn as [(y & Hy & Hpass)%sig_mask_true_b64 Hmax].
  assert (y = c) as -> by congruence.
  assert (B64.crit_of sp q = Some c) as Hc.
  { apply (crit_of_Some_b64 sp q k c); [done..|].
    intros k' x Hlt Hx. apply not_true_is_false. intros Hp.
    apply (Hmax k' Hlt), sig_mask_true_b64. eauto. }
  pose proof (lookup_lt_Some _ _ _ Hk) as Hlen.
  apply list_eq. intros i. rewrite list_lookup_fmap.
  destruct (decide (i < length sp)%nat) as [Hi|Hi].
  - destruct (lookup_lt_is_Some_2 sp i Hi) as [x Hx]. rewrite Hx.
    cbn [fmap option_fmap option_map].
    pose proof (flag_passes_b64 sp q i x Hs Hasc Hx) as Hflag.
    rewrite Hc in Hflag.
    destruct (decide (i ≤ k)%nat) as [Hle|Hgt].
    + rewrite lookup_app_l, lookup_replicate_2
        by (rewrite ?length_replicate; lia).
      f_equal. apply Hflag. eauto.
    + rewrite lookup_app_r, length_replicate, lookup_replicate_2
        by (rewrite ?length_replicate; lia).
      f_equal. apply not_true_is_false. intros Hxc.
      apply Hflag in Hxc as (k' & z & Hle & Hz & Hp).
      apply (Hmax k'); [lia|]. apply sig_mask_true_b64. eauto.
  - rewrite (lookup_ge_None_2 sp) by lia. symmetry.
    apply lookup_ge_None_2. rewrite length_app, !length_replicate. lia.
Qed.

Lemma length_sig_mask_b64 sp q : length (B64.sig_mask sp q) = length sp.
Proof. unfold B64.sig_mask. apply length_imap. Qed.

Lemma count_true_bh_flags_b64 argsort pvals q :
  B64.sorts (B64.valid pvals) (argsort (B64.valid pvals)) →
  B64.thr_ascend (length (B64.valid pvals)) q →
  count_true (B64.bh_flags argsort pvals q)
  = largest_of (B64.sig_mask (B64.sorted_pvals argsort pvals) q).
Proof.
  intros Hs Hasc. unfold B64.bh_flags. rewrite crit_of_largest_b64.
  pose proof (length_sorted_pvals_b64 argsort pvals Hs) as Hlen.
  set (sp := B64.sorted_pvals argsort pvals) in *.
  destruct (largest_of (B64.sig_mask sp q)) as [|k] eqn:Hn.
  { by rewrite count_true_replicate. }
  pose proof (largest_of_le (B64.sig_mask sp q)) as Hle.
  rewrite Hn, length_sig_mask_b64 in Hle.
  destruct (lookup_lt_is_Some_2 sp k) as [c Hc]; [lia|].
  rewrite Hc, count_true_flags_valid_b64.
  rewrite <-(count_true_Permutation ((λ x, B64.fle x c) <$> sp))
    by (unfold sp; by rewrite sorted_pvals_Permutation_b64).
  rewrite (sorted_flags_b64 sp q k c);
    [|by apply Sorted_sorted_pvals_b64|by rewrite Hlen|done..].
  rewrite count_true_app, !count_true_replicate. lia.
Qed.

(** X19: in binary64, when the thresholds ascend with the rank, the number
    of flags set by [fdr_bh] is the count that the two loops of the harness
    arrive at on the array [sorted_pvals] of the routine, and the critical
    p-value is the entry of [sorted_pvals] at that rank (0 when the count is
    0). *)
Theorem X19_flag_count_binary64 argsort pvals q :
  B64.sorts (B64.valid pvals) (argsort (B64.valid pvals)) →
  B64.valid pvals ≠ [] →
  B64.thr_ascend (length (B64.valid pvals)) q →
  ∃ h crit adj,
    B64.fdr_bh argsort pvals q = Ok (h, crit, adj) ∧
    B64.expected_largest (B64.sorted_pvals argsort pvals) q = Ok (count_true h) ∧
    B64.manual_largest (B64.sorted_pvals argsort pvals) q = Ok (count_true h) ∧
    match count_true h with
    | O => crit = 0%float
    | S k => B64.sorted_pvals argsort pvals !! k = Some crit
    end.
Proof.
  intros Hs Hne Hasc. eexists _, _, _. split; [by apply fdr_bh_run_b64|].
  rewrite count_true_bh_flags_b64 by done.
  split; [apply expected_largest_eq_b64|]. split; [apply manual_largest_eq_b64|].
  unfold B64.bh_crit. rewrite crit_of_largest_b64.
  pose proof (largest_of_le (B64.sig_mask (B64.sorted_pvals argsort pvals) q)) as Hle.
  rewrite length_sig_mask_b64 in Hle.
  destruct (largest_of _) as [|k]; [done|].
  destruct (lookup_lt_is_Some_2 (B64.sorted_pvals argsort pvals) k) as [c Hc];
    [lia|].
  by rewrite Hc.
Qed.

(** X20: in binary64, at a level [q] that no threshold exceeds, a flagged
    entry has a raw p-value of at most [q]. *)
Theorem X20_flagged_within_level_binary64 argsort pvals q :
  B64.sorts (B64.valid pvals) (argsort (B64.valid pvals)) →
  (∀ k, (k < length (B64.valid pvals))%nat →
     B64.fle (B64.thr (length (B64.valid pvals)) q k) q = true) →
  ∃ h crit adj,
    B64.fdr_bh argsort pvals q = Ok (h, crit, adj) ∧
    ∀ i, h !! i = Some true →
      ∃ x, pvals !! i = Some x ∧ B64.fle x q = true.
Proof.
  intros Hs Hq. destruct (decide (pvals = [])) as [->|Hp].
  { eexists _, _, _. split; [apply fdr_bh_nil_b64|done]. }
  destruct (decide (B64.valid pvals = [])) as [Hnil|Hne].
  { eexists _, _, _. split; [by apply fdr_bh_all_nan_b64|].
    intros i Hf. apply lookup_replicate in Hf as [? _]. done. }
  eexists _, _, _. split; [by apply fdr_bh_run_b64|]. intros i.
  unfold B64.bh_flags.
  pose proof (length_sorted_pvals_b64 argsort pvals Hs) as Hlen.
  destruct (B64.crit_of (B64.sorted_pvals argsort pvals) q) as [c|] eqn:Hc.
  - rewrite list_lookup_fmap. destruct (pvals !! i) as [x|]; [|done]. simpl.
    destruct (B64.isnan x); [done|]. intros [= Hxc]. exists x. split; [done|].
    apply crit_of_Some_inv_b64 in Hc as (k & Hk & Hpass & _).
    eapply fle_trans_b64; [done|]. eapply fle_trans_b64; [done|].
    rewrite Hlen. apply Hq. rewrite <-Hlen. by eapply lookup_lt_Some.
  - intros Hf. apply lookup_replicate in Hf as [? _]. done.
Qed.

(** ** The further properties at concrete inputs *)







(** X8 at the input [0.5, 0, nan]. *)
Lemma X8_level_zero_witness :
  let pvals := [py_float 0.5; py_float 0; NaN] in
  in_unit pvals ∧
  ∃ h crit adj,
    fdr_bh pvals (py_float 0) = Ok (h, crit, adj) ∧
    ∀ i x, pvals !! i = Some (Fin x) → h !! i = Some (bool_decide (x = 0)).
Proof.
  intros pvals.
  assert (in_unit pvals) as H1 by compute_done.
  split; [done|].
  exact (X8_level_zero pvals H1).
Defined.

(** X10 at the input [0.5, nan, 0.01] with q = 1. *)
Lemma X10_all_within_level_witness :
  let pvals := [py_float 0.5; NaN; py_float 0.01] in
  vals pvals ≠ [] ∧ Forall (λ x, x ≤ 1) (vals pvals) ∧
  ∃ c adj,
    fdr_bh pvals (Fin 1) = Ok ((λ p, negb (isnan p)) <$> pvals, Fin c, adj) ∧
    c ∈ vals pvals ∧ Forall (λ x, x ≤ c) (vals pvals).
Proof.
  intros pvals.
  assert (vals pvals ≠ []) as H1 by done.
  assert (Forall (λ x, x ≤ 1) (vals pvals)) as H2 by compute_done.
  split_and!; [done..|].
  exact (X10_all_within_level pvals 1 H1 H2).
Defined.

(** X11 at the input [nan, 2, nan] with q = 0.05: the entry 2 is not
    flagged and its adjusted value is 2. *)
Lemma X11_single_test_witness :
  let pvals := [NaN; py_float 2; NaN] in
  let q := py_float 0.05 in
  vals pvals = [Q2Qc 2] ∧
  fdr_bh pvals q
  = Ok ((λ p, fle p q) <$> pvals,
        (if fle (Fin (Q2Qc 2)) q then Fin (Q2Qc 2) else Fin 0), pvals).
Proof.
  intros pvals q.
  assert (vals pvals = [Q2Qc 2]) as H1 by reflexivity.
  split; [done|].
  exact (X11_single_test pvals q (Q2Qc 2) H1).
Defined.

(** X12 at the array [0.5, nan, 0.01], writing the flag "is a number" back
    into an array of three. *)
Lemma X12_sort_unsort_witness :
  let a := [py_float 0.5; NaN; py_float 0.01] in
  let base := [false; false; false] in
  let f := λ p, negb (isnan p) in
  length base = length a ∧
  ∃ sorted,
    take_idx a (argsort a) = Ok sorted ∧
    Sorted sort_le sorted ∧ sorted ≡ₚ a ∧
    put_idx base (argsort a) (f <$> sorted) = Ok (f <$> a).
Proof.
  intros a base f.
  assert (length base = length a) as H1 by reflexivity.
  split; [done|].
  exact (X12_sort_unsort f a base H1).
Defined.

(** X15 and X16 at the input [inf, nan, -0.0, 0.5] with q = nan, sorted by
    the merge sort. *)
Lemma X15_total_binary64_witness :
  let pvals := [infinity; B64.nan; (-0); 0.5]%float in
  B64.sorts (B64.valid pvals) (B64.merge_argsort (B64.valid pvals)) ∧
  ∃ h crit adj,
    B64.fdr_bh B64.merge_argsort pvals B64.nan = Ok (h, crit, adj) ∧
    length h = length pvals ∧ length adj = length pvals.
Proof.
  intros pvals.
  assert (B64.sorts (B64.valid pvals) (B64.merge_argsort (B64.valid pvals)))
    as H0 by compute_done.
  split; [done|].
  exact (X15_total_binary64 B64.merge_argsort pvals B64.nan H0).
Defined.

Lemma X16_flags_binary64_witness :
  let pvals := [infinity; B64.nan; (-0); 0.5]%float in
  B64.sorts (B64.valid pvals) (B64.merge_argsort (B64.valid pvals)) ∧
  ∃ h crit adj,
    B64.fdr_bh B64.merge_argsort pvals 0.05%float = Ok (h, crit, adj) ∧
    (∀ i x, pvals !! i = Some x → B64.isnan x = true →
       h !! i = Some false ∧ ∃ a, adj !! i = Some a ∧ B64.isnan a = true) ∧
    (∀ i j x y, pvals !! i = Some x → pvals !! j = Some y →
       h !! i = Some true → B64.fle y x = true → h !! j = Some true).
Proof.
  intros pvals.
  assert (B64.sorts (B64.valid pvals) (B64.merge_argsort (B64.valid pvals)))
    as H0 by compute_done.
  split; [done|].
  exact (X16_flags_binary64 B64.merge_argsort pvals 0.05%float H0).
Defined.

(** X17 at the input [0.5, nan, 0.01, 0.5], sorted by the merge sort. *)
Lemma X17_sorted_binary64_witness :
  let pvals := [0.5; B64.nan; 0.01; 0.5]%float in
  B64.sorts (B64.valid pvals) (B64.merge_argsort (B64.valid pvals)) ∧
  B64.sorted_pvals B64.merge_argsort pvals = [0.01; 0.5; 0.5]%float ∧
  NoDup (B64.ranked B64.merge_argsort pvals).*2.
Proof.
  intros pvals.
  assert (B64.sorts (B64.valid pvals) (B64.merge_argsort (B64.valid pvals)))
    as H0 by compute_done.
  split_and!; [done|vm_compute; reflexivity|].
  by destruct (proj2 X17_sorted_binary64 B64.merge_argsort pvals H0)
    as (_ & _ & _ & ?).
Defined.

(** X19 at the input [0.5, nan, 0.01, 0.5] with q = 0.05, sorted by the merge
    sort. *)
Lemma X19_flag_count_binary64_witness :
  let pvals := [0.5; B64.nan; 0.01; 0.5]%float in
  let q := 0.05%float in
  B64.sorts (B64.valid pvals) (B64.merge_argsort (B64.valid pvals)) ∧
  B64.valid pvals ≠ [] ∧
  B64.thr_ascend (length (B64.valid pvals)) q ∧
  ∃ h crit adj,
    B64.fdr_bh B64.merge_argsort pvals q = Ok (h, crit, adj) ∧
    B64.expected_largest (B64.sorted_pvals B64.merge_argsort pvals) q
    = Ok (count_true h) ∧
    B64.manual_largest (B64.sorted_pvals B64.merge_argsort pvals) q
    = Ok (count_true h) ∧
    match count_true h with
    | O => crit = 0%float
    | S k => B64.sorted_pvals B64.merge_argsort pvals !! k = Some crit
    end.
Proof.
  intros pvals q.
  assert (B64.sorts (B64.valid pvals) (B64.merge_argsort (B64.valid pvals)))
    as H0 by compute_done.
  assert (B64.valid pvals ≠ []) as H1 by (vm_compute; congruence).
  assert (B64.thr_ascend (length (B64.valid pvals)) q) as H2.
  { assert (length (B64.valid pvals) = 3%nat) as -> by (vm_compute; reflexivity).
    intros k k' Hle Hlt.
    do 3 (destruct k' as [|k'];
      [do 3 (destruct k as [|k]; [first [lia|vm_compute; reflexivity]|]); lia|]).
    lia. }
  split_and!; [done..|].
  exact (X19_flag_count_binary64 B64.merge_argsort pvals q H0 H1 H2).
Defined.

(** X20 at the input [0.5, nan, 0.01, 0.5] with q = 0.05, sorted by the merge
    sort: the thresholds are (1 / 3) * 0.05, (2 / 3) * 0.05 and 0.05. *)
Lemma X20_flagged_within_level_binary64_witness :
  let pvals := [0.5; B64.nan; 0.01; 0.5]%float in
  let q := 0.05%float in
  B64.sorts (B64.valid pvals) (B64.merge_argsort (B64.valid pvals)) ∧
  (∀ k, (k < length (B64.valid pvals))%nat →
     B64.fle (B64.thr (length (B64.valid pvals)) q k) q = true) ∧
  ∃ h crit adj,
    B64.fdr_bh B64.merge_argsort pvals q = Ok (h, crit, adj) ∧
    ∀ i, h !! i = Some true →
      ∃ x, pvals !! i = Some x ∧ B64.fle x q = true.
Proof.
  intros pvals q.
  assert (B64.sorts (B64.valid pvals) (B64.merge_argsort (B64.valid pvals)))
    as H0 by compute_done.
  assert (∀ k, (k < length (B64.valid pvals))%nat →
            B64.fle (B64.thr (length (B64.valid pvals)) q k) q = true) as H1.
  { assert (length (B64.valid pvals) = 3%nat) as -> by (vm_compute; reflexivity).
    intros k Hlt.
    do 3 (destruct k as [|k]; [vm_compute; reflexivity|]). lia. }
  split_and!; [done..|].
  exact (X20_flagged_within_level_binary64 B64.merge_argsort pvals q H0 H1).
Defined.
